(** * seqtools: enumeration of DNA sequence variants

    A shallow embedding of [seqtools.py] and the verification of its
    specification.  Python values are modelled as follows:

    - [str] is a list of characters ([list ascii]); a one-character string
      obtained by indexing is the character itself;
    - [int] is [Z]; [len] returns a [Z];
    - a tuple of ints is a [list Z], a tuple of characters a [list ascii];
    - a [set] of strings is a [gset (list ascii)];
    - an exception is an explicit [Raise e] in the error monad [result]. *)

From Stdlib Require Import ZArith Ascii String.
From stdpp Require Import base tactics option list numbers countable gmap strings
  pretty sorting.

Local Open Scope Z_scope.

(** ** Python primitives *)

Module Py.

Inductive exn : Set :=
| IndexError
| ValueError
| KeyError
| AssertionError.

Inductive result (A : Type) : Type :=
| Ok (a : A)
| Raise (e : exn).
Arguments Ok {A} a.
Arguments Raise {A} e.

(** Sequencing: an exception aborts what follows.  With these instances
    stdpp's [x ← m; k] and [m;; k] read as Python statements. *)
#[global] Instance result_ret : MRet result := λ A a, Ok a.
#[global] Instance result_bind : MBind result := λ A B k m,
  match m with
  | Ok a => k a
  | Raise e => Raise e
  end.

(** [assert] statement. *)
Definition assert (b : bool) : result unit :=
  if b then Ok tt else Raise AssertionError.

(** [for x in l: acc = body acc x], stopping at the first exception. *)
Fixpoint for_ {A S} (l : list A) (acc : S) (body : S → A → result S)
  : result S :=
  match l with
  | [] => Ok acc
  | x :: l' => acc' ← body acc x; for_ l' acc' body
  end.

(** [[f x for x in l]], stopping at the first exception. *)
Fixpoint comprehension {A B} (f : A → result B) (l : list A)
  : result (list B) :=
  match l with
  | [] => Ok []
  | x :: l' =>
      y ← f x; ys ← comprehension f l'; Ok (y :: ys)
  end.

Definition len {A} (l : list A) : Z := Z.of_nat (length l).

(** Clamping of a slice bound, as done by [PySlice_AdjustIndices] for a
    step of one. *)
Definition adjust (n i : Z) : Z :=
  if i <? 0 then Z.max 0 (n + i) else Z.min i n.

(** [l[lo:hi]] *)
Definition slice {A} (l : list A) (lo hi : Z) : list A :=
  let a := adjust (len l) lo in
  let b := adjust (len l) hi in
  take (Z.to_nat (b - a)) (drop (Z.to_nat a) l).

(** [l[:hi]] *)
Definition slice_to {A} (l : list A) (hi : Z) : list A :=
  take (Z.to_nat (adjust (len l) hi)) l.

(** [l[lo:]] *)
Definition slice_from {A} (l : list A) (lo : Z) : list A :=
  drop (Z.to_nat (adjust (len l) lo)) l.

(** [l[i]] *)
Definition index {A} (l : list A) (i : Z) : result A :=
  let j := if i <? 0 then len l + i else i in
  if (j <? 0) || (len l <=? j) then Raise IndexError
  else match l !! Z.to_nat j with
       | Some x => Ok x
       | None => Raise IndexError
       end.

(** [range(start, stop)] *)
Definition range (start stop : Z) : list Z :=
  (λ k : nat, start + Z.of_nat k) <$> seq 0 (Z.to_nat (stop - start)).

(** [range(start, stop, step)]; a step of zero is a [ValueError]. *)
Definition range_step (start stop step : Z) : result (list Z) :=
  if step =? 0 then Raise ValueError
  else
    let n := if 0 <? step
             then (stop - start + step - 1) / step
             else (start - stop - step - 1) / (- step) in
    Ok ((λ k : nat, start + Z.of_nat k * step) <$> seq 0 (Z.to_nat n)).

(** [enumerate(l)] *)
Definition enumerate {A} (l : list A) : list (Z * A) :=
  imap (λ i x, (Z.of_nat i, x)) l.

(** [sum(l)] over ints *)
Definition sum (l : list Z) : Z := foldl Z.add 0 l.

(** [itertools.combinations(l, r)] for a natural [r], in the order in
    which itertools emits them. *)
Fixpoint combinations_nat {A} (l : list A) (r : nat) {struct l}
  : list (list A) :=
  match r, l with
  | O, _ => [[]]
  | S _, [] => []
  | S r', x :: l' =>
      (cons x <$> combinations_nat l' r') ++ combinations_nat l' r
  end.

(** [itertools.combinations(l, r)]: a negative [r] is a [ValueError]. *)
Definition combinations {A} (l : list A) (r : Z) : result (list (list A)) :=
  if r <? 0 then Raise ValueError else Ok (combinations_nat l (Z.to_nat r)).

(** [itertools.product] applied to the iterables [ls] *)
Fixpoint product {A} (ls : list (list A)) : list (list A) :=
  match ls with
  | [] => [[]]
  | l :: ls' => x ← l; cons x <$> product ls'
  end.

(** [itertools.product(l, repeat=n)]: a negative [n] is a [ValueError]. *)
Definition product_repeat {A} (l : list A) (n : Z)
  : result (list (list A)) :=
  if n <? 0 then Raise ValueError else Ok (product (replicate (Z.to_nat n) l)).

End Py.

Export Py.

(** A Python [str] and a Python [set] of [str]. *)
Abbreviation str := (list ascii).
Abbreviation strset := (gset (list ascii)).

(** String literals. *)
Definition lit (x : string) : str := list_ascii_of_string x.

(** ** The module [seqtools] *)

Definition bases : str := lit "ACGT".

(** [l.index(c)] *)
Fixpoint str_index (l : str) (c : ascii) : result Z :=
  match l with
  | [] => Raise ValueError
  | x :: l' => if decide (x = c) then Ok 0 else i ← str_index l' c; Ok (i + 1)
  end.

(** [l.replace(c, '')] for a one-character string [c] *)
Definition str_remove (l : str) (c : ascii) : str :=
  filter (λ x, x ≠ c) l.

(** [dna2num]: the generator is consumed by [sum]; [s[::-1]] is the
    reversed string. *)
Definition dna2num (s : str) : result Z :=
  terms ← comprehension
             (λ '(i, c), k ← str_index bases c; Ok (Z.shiftl k (2 * i)))
             (enumerate (reverse s));
  Ok (sum terms).

(** [num2dna].  The shift counts [i] come from [range(2*dnalen-2, -1, -2)]
    and are therefore never negative. *)
Definition num2dna (n dnalen : Z) : result str :=
  idxs ← range_step (2 * dnalen - 2) (-1) (-2);
  comprehension
    (λ i, index bases (Z.shiftr (Z.land n (Z.shiftl 3 i)) i)) idxs.

(** *** Exhaustive enumerators *)

(** Body of the loop of [get_deletion_seqs] for one tuple of positions. *)
Definition get_deletion_newseq (seq : str) (ndel : Z) (tup : list Z)
  : result str :=
  t0 ← index tup 0;
  let newseq := slice_to seq t0 in
  let newseq :=
    foldl (λ newseq '(i, j), newseq ++ slice seq (i + 1) j)
          newseq (zip tup (slice_from tup 1)) in
  tl ← index tup (-1);
  let newseq := newseq ++ slice_from seq (tl + 1) in
  assert (len newseq =? len seq - ndel);;
  Ok newseq.

Definition get_deletion_seqs (seq : str) (ndel : Z) : result strset :=
  tups ← combinations (range 0 (len seq)) ndel;
  for_ tups (∅ : strset) (λ outset tup,
    newseq ← get_deletion_newseq seq ndel tup;
    Ok ({[ newseq ]} ∪ outset)).

Definition get_contiguous_insertion_seqs (seq : str) (len_ins : Z)
  : result strset :=
  all_insertions ← product_repeat bases len_ins;
  let outset :=
    foldl (λ (outset : strset) i,
             list_to_set
               ((λ insertion, slice_to seq i ++ insertion ++ slice_from seq i)
                  <$> all_insertions) ∪ outset)
          ∅ (range 1 (len seq + 1)) in
  assert (forallb (λ outseq, len outseq =? len seq + len_ins)
                  (elements outset));;
  Ok outset.

(** Body of the loops of [get_insertion_seqs] for one tuple of slots and
    one tuple of inserted bases. *)
Definition get_insertion_newseq (seq : str) (nins : Z)
    (tup : list Z) (ins_bases : list ascii) : result str :=
  assert (len ins_bases =? len tup);;
  t0 ← index tup 0;
  let newseq := slice_to seq t0 in
  newseq ← for_ (enumerate (zip tup (slice_from tup 1))) newseq
    (λ newseq '(base_idx, (i, j)),
       b ← index ins_bases base_idx;
       Ok (newseq ++ b :: slice seq i j));
  bl ← index ins_bases (-1);
  tl ← index tup (-1);
  let newseq := newseq ++ bl :: slice_from seq tl in
  assert (len newseq =? len seq + nins);;
  Ok newseq.

Definition get_insertion_seqs (seq : str) (nins : Z) : result strset :=
  tups ← combinations (range 1 (len seq + 1)) nins;
  for_ tups (∅ : strset) (λ outset tup,
    all_ins_bases ← product_repeat bases nins;
    for_ all_ins_bases outset (λ outset ins_bases,
      newseq ← get_insertion_newseq seq nins tup ins_bases;
      Ok ({[ newseq ]} ∪ outset))).

(** Body of the loops of [get_mismatch_seqs] for one tuple of positions and
    one tuple of substituted bases. *)
Definition get_mismatch_newseq (seq : str) (tup : list Z)
    (mm_bases : list ascii) : result str :=
  t0 ← index tup 0;
  let newseq := slice_to seq t0 in
  newseq ← for_ (enumerate (slice_to mm_bases (-1))) newseq
    (λ newseq '(i, c),
       ti ← index tup i;
       ti1 ← index tup (i + 1);
       Ok (newseq ++ c :: slice seq (ti + 1) ti1));
  cl ← index mm_bases (-1);
  tl ← index tup (-1);
  let newseq := newseq ++ cl :: slice_from seq (tl + 1) in
  assert (len newseq =? len seq);;
  Ok newseq.

Definition get_mismatch_seqs (seq : str) (num_mm : Z) : result strset :=
  tups ← combinations (range 0 (len seq)) num_mm;
  for_ tups (∅ : strset) (λ outset tup,
    all_mm_bases ← comprehension
                      (λ i, c ← index seq i; Ok (str_remove bases c)) tup;
    for_ (product all_mm_bases) outset (λ outset mm_bases,
      newseq ← get_mismatch_newseq seq tup mm_bases;
      Ok ({[ newseq ]} ∪ outset))).

(** *** Complements *)

Definition complements : gmap ascii ascii :=
  list_to_map [("A", "T"); ("T", "A"); ("C", "G"); ("G", "C")]%char.

(** [complements[c]] *)
Definition complements_get (c : ascii) : result ascii :=
  match complements !! c with
  | Some d => Ok d
  | None => Raise KeyError
  end.

Definition forward_complement (seq : str) : result str :=
  comprehension complements_get seq.

(** The expression [seq[:start] + forward_complement(seq[start:end_])
    + seq[end_:]], used by [get_stretch_of_complement_seqs] with
    [end_ = start + num_bases] and by [get_complementary_bundle_sets]. *)
Definition complement_span (seq : str) (start end_ : Z) : result str :=
  mid ← forward_complement (slice seq start end_);
  Ok (slice_to seq start ++ mid ++ slice_from seq end_).

Definition get_stretch_of_complement_seqs (seq : str) (num_bases : Z)
  : result strset :=
  for_ (range 0 (len seq - num_bases + 1)) (∅ : strset) (λ outset i,
    newseq ← complement_span seq i (i + num_bases);
    Ok ({[ newseq ]} ∪ outset)).

(** *** Randomized regions *)

Definition get_randomized_pam_seqs (seq : str)
    (num_pam_bases num_randomized_bases : Z) (end_ : str) : result strset :=
  assert (num_pam_bases <=? num_randomized_bases);;
  all_randomized ← product_repeat bases num_randomized_bases;
  if decide (end_ = lit "5p") then
    Ok (list_to_set
          ((λ rand_seq, rand_seq ++ slice_from seq num_pam_bases)
             <$> all_randomized))
  else
    assert (bool_decide (end_ = lit "3p"));;
    Ok (list_to_set
          ((λ rand_seq, slice_to seq (- num_pam_bases) ++ rand_seq)
             <$> all_randomized)).

Definition get_randomized_region_seqs (seq : str) (start end_ : Z)
  : result strset :=
  assert (start <? end_);;
  all_randomized ← product_repeat bases (end_ - start);
  Ok (list_to_set
        ((λ rand_seq, slice_to seq start ++ rand_seq ++ slice_from seq end_)
           <$> all_randomized)).

Definition get_mismatches_in_region (seq : str) (start end_ num_mm : Z)
  : result strset :=
  mm_seqs ← get_mismatch_seqs (slice seq start end_) num_mm;
  Ok (list_to_set
        ((λ mm_seq, slice_to seq start ++ mm_seq ++ slice_from seq end_)
           <$> elements mm_seqs)).

(** *** Complement bundles *)

(** The list [bundles] built in the loop of
    [get_complementary_bundle_sets] for one [bundle_len]. *)
Definition make_bundles (seq : str) (bundle_len : Z)
  : result (list (Z * Z)) :=
  if len seq <? bundle_len * 2 then Ok [(0, len seq)]
  else
    let last := len seq - len seq `mod` bundle_len - bundle_len in
    starts ← range_step 0 last bundle_len;
    let bundles :=
      foldl (λ bundles start, bundles ++ [(start, start + bundle_len)])
            [] starts in
    Ok (bundles ++ [(last, len seq)]).

(** The test [len(seq) - sum(...) <= len(seq)/3.0].  The left side is an
    int and the right side the double nearest to [len/3]; as long as the
    length is below 2^53 that comparison holds exactly when
    [3 * (len - sum) <= len], which is what is computed here. *)
Definition too_little_left (seq : str) (selected_bundles : list (Z * Z))
  : bool :=
  3 * (len seq - sum ((λ '(start, end_), end_ - start) <$> selected_bundles))
    <=? len seq.

(** The inner loop that complements the selected bundles one by one. *)
Definition complement_bundles (seq : str) (selected_bundles : list (Z * Z))
  : result str :=
  for_ selected_bundles seq (λ newseq '(start, end_),
    complement_span newseq start end_).

Definition get_complementary_bundle_sets (seq : str) : result strset :=
  bundle_lens ← range_step 3 11 2;
  for_ bundle_lens (∅ : strset) (λ outset bundle_len,
    bundles ← make_bundles seq bundle_len;
    for_ (range 2 4) outset (λ outset num_bundles,
      combos ← combinations bundles num_bundles;
      for_ combos outset (λ outset selected_bundles,
        if too_little_left seq selected_bundles then Ok outset
        else
          newseq ← complement_bundles seq selected_bundles;
          assert (len newseq =? len seq);;
          Ok ({[ newseq ]} ∪ outset)))).

(** *** Hamming distance *)

Definition simple_hamming_distance (s1 s2 : str) : Z :=
  sum ((λ _, 1) <$> filter (λ '(c1, c2), c1 ≠ c2) (zip s1 s2)).

(** *** Functions beside the enumerators *)

(** [str.maketrans('acgtnACGTN', 'tgcanTGCAN')] *)
Definition dna_complements : gmap ascii ascii :=
  list_to_map (zip (lit "acgtnACGTN") (lit "tgcanTGCAN")).

(** [s.translate(table)]: a character without an entry is kept. *)
Definition translate (table : gmap ascii ascii) (s : str) : str :=
  (λ c, default c (table !! c)) <$> s.

Definition dna_rev_comp (dna_string : str) : str :=
  reverse (translate dna_complements dna_string).

Definition switch_end_to_complement (seq : str) (num_bases : Z)
  : result str :=
  if num_bases <=? 0 then Ok seq
  else
    tail ← forward_complement (slice_from seq (- num_bases));
    Ok (slice_to seq (- num_bases) ++ tail).

Definition get_randomized_stretch_seqs (seq : str) (num_bases : Z)
  : result strset :=
  all_randomized ← product_repeat bases num_bases;
  Ok (foldl (λ (outset : strset) i,
               list_to_set
                 ((λ rand_seq,
                     slice_to seq i ++ rand_seq
                       ++ slice_from seq (i + num_bases))
                    <$> all_randomized) ∪ outset)
            ∅ (range 0 (len seq - num_bases + 1))).

(** [str(i)] for an int, in decimal. *)
Definition str_of_int (i : Z) : str := list_ascii_of_string (pretty i).

(** [sep.join(l)] *)
Fixpoint str_join (sep : str) (l : list str) : str :=
  match l with
  | [] => []
  | [x] => x
  | x :: l' => x ++ sep ++ str_join sep l'
  end.

Definition mm_names (ref seq : str) : str :=
  let mms :=
    foldl (λ mms '(i, (c1, c2)),
             if decide (c1 ≠ c2) then mms ++ [c1 :: str_of_int i ++ [c2]]
             else mms)
          [] (enumerate (zip ref seq)) in
  str_join (lit ",") mms.

(** *** The module [random]

    The state of Python's generator is kept abstract: it is the stream of
    the numbers that the generator is still going to hand out.  Each
    function of the module takes the next numbers of the stream and
    reduces them to the range asked for, so every outcome that the module
    can produce arises from some stream, and what is proved for all
    streams holds whatever the generator does. *)
Definition rng : Type := nat → nat.

(** A computation that draws random numbers and may raise. *)
Definition rand (A : Type) : Type := rng → result (A * rng).

#[global] Instance rand_ret : MRet rand := λ A a g, Ok (a, g).
#[global] Instance rand_bind : MBind rand := λ A B k m g,
  match m g with
  | Ok (a, g') => k a g'
  | Raise e => Raise e
  end.

Definition raise {A} (e : exn) : rand A := λ _, Raise e.

(** A computation that draws nothing. *)
Definition lift {A} (m : result A) : rand A := λ g,
  match m with
  | Ok a => Ok (a, g)
  | Raise e => Raise e
  end.

(** [for x in l: acc = body acc x] and [[f x for x in l]] with draws. *)
Fixpoint rand_for {A S} (l : list A) (acc : S) (body : S → A → rand S)
  : rand S :=
  match l with
  | [] => mret acc
  | x :: l' => acc' ← body acc x; rand_for l' acc' body
  end.

Fixpoint rand_comprehension {A B} (f : A → rand B) (l : list A)
  : rand (list B) :=
  match l with
  | [] => mret []
  | x :: l' => y ← f x; ys ← rand_comprehension f l'; mret (y :: ys)
  end.

(** [random._randbelow(n)] for a positive [n]: a number below [n]. *)
Definition randbelow (n : nat) : rand nat := λ g,
  Ok ((g 0 `mod` n)%nat, λ i, g (S i)).

(** [random.randrange(stop)]: an empty range is a [ValueError]. *)
Definition randrange (stop : Z) : rand Z :=
  if stop <=? 0 then raise ValueError
  else i ← randbelow (Z.to_nat stop); mret (Z.of_nat i).

(** [random.randint(a, b)], which is [randrange(a, b + 1)]. *)
Definition randint (a b : Z) : rand Z :=
  if b + 1 - a <=? 0 then raise ValueError
  else i ← randbelow (Z.to_nat (b + 1 - a)); mret (a + Z.of_nat i).

(** [random.choice(l)]: an empty sequence is an [IndexError]. *)
Definition choice {A} (l : list A) : rand A :=
  if len l =? 0 then raise IndexError
  else i ← randbelow (length l); lift (index l (Z.of_nat i)).

(** [random.sample(population, k)]: [k] elements from distinct positions
    of the population, in the order in which they are drawn; a [k] that
    is negative or exceeds the population is a [ValueError]. *)
Fixpoint sample_from {A} (pool : list A) (k : nat) : rand (list A) :=
  match k with
  | O => mret []
  | S k' =>
      j ← randbelow (length pool);
      x ← lift (index pool (Z.of_nat j));
      rest ← sample_from (delete j pool) k';
      mret (x :: rest)
  end.

Definition sample {A} (population : list A) (k : Z) : rand (list A) :=
  if (k <? 0) || (len population <? k) then raise ValueError
  else sample_from population (Z.to_nat k).

(** [l.sort(reverse=True)] on ints *)
Definition descending : relation Z := λ x y, y ≤ x.

#[global] Instance descending_dec (x y : Z) : Decision (descending x y) :=
  decide (y ≤ x).

Definition sort_reverse (l : list Z) : list Z := merge_sort descending l.

(** [n * l] on a list: no copy at all for [n <= 0]. *)
Definition list_repeat {A} (n : Z) (l : list A) : list A :=
  mjoin (replicate (Z.to_nat n) l).

(** *** Random errors *)

Definition fill_or_truncate (seq : str) (slen : Z) : rand str :=
  if slen <=? len seq then mret (slice_to seq slen)
  else
    fill ← rand_comprehension (λ _, choice bases) (range 0 (slen - len seq));
    mret (seq ++ fill).

Definition add_random_mismatch (seq : str) : rand str :=
  i ← randrange (len seq);
  c ← lift (index seq i);
  b ← choice (str_remove bases c);
  mret (slice_to seq i ++ b :: slice_from seq (i + 1)).

Definition add_random_deletion (seq : str) : rand str :=
  i ← randrange (len seq);
  mret (slice_to seq i ++ slice_from seq (i + 1)).

Definition add_random_filled_deletion (seq : str) : rand str :=
  b ← choice bases;
  newseq ← add_random_deletion seq;
  mret (newseq ++ [b]).

Definition add_random_insertion (seq : str) : rand str :=
  i ← randrange (len seq);
  b ← choice bases;
  mret (slice_to seq i ++ b :: slice_from seq i).

Definition add_random_truncated_insertion (seq : str) : rand str :=
  newseq ← add_random_insertion seq;
  mret (slice_to newseq (len seq)).

Definition add_random_mismatches (seq : str) (nerr : Z) : rand str :=
  idxs ← sample (range 0 (len seq)) nerr;
  rand_for idxs seq (λ seq i,
    c ← lift (index seq i);
    b ← choice (str_remove bases c);
    mret (slice_to seq i ++ b :: slice_from seq (i + 1))).

Definition add_random_deletions (seq : str) (nerr : Z) : rand str :=
  idxs ← sample (range 0 (len seq)) nerr;
  let idxs := sort_reverse idxs in
  mret (foldl (λ seq i, slice_to seq i ++ slice_from seq (i + 1)) seq idxs).

Definition add_random_filled_deletions (seq : str) (nerr : Z) : rand str :=
  newseq ← add_random_deletions seq nerr;
  fill_or_truncate newseq (len seq).

Definition add_random_insertions (seq : str) (nerr : Z) : rand str :=
  idxs ← sample (list_repeat nerr (range 0 (len seq))) nerr;
  let idxs := sort_reverse idxs in
  rand_for idxs seq (λ seq i,
    b ← choice bases;
    mret (slice_to seq i ++ b :: slice_from seq i)).

Definition add_random_truncated_insertions (seq : str) (nerr : Z)
  : rand str :=
  newseq ← add_random_insertions seq nerr;
  mret (slice_to newseq (len seq)).

Definition add_random_freediv_errors (seq : str) (nerr : Z) : rand str :=
  n_mm ← randint 0 nerr;
  n_del ← randint 0 (nerr - n_mm);
  let n_ins := nerr - n_mm - n_del in
  with_mm ← add_random_mismatches seq n_mm;
  with_ins ← add_random_insertions with_mm n_ins;
  with_del ← add_random_deletions with_ins n_del;
  fill_or_truncate with_del (len seq).

(** *** Well-formed input *)

(** A sequence over the four-letter alphabet. *)
Definition is_dna (seq : str) : Prop := Forall (λ c, c ∈ bases) seq.

(** The complement of a base, as a total function for the proofs. *)
Definition compl (c : ascii) : ascii := default c (complements !! c).

(** The base-4 digit of a base and the base of a digit, as total
    functions for the proofs. *)
Definition digit_of_base (c : ascii) : Z :=
  match str_index bases c with Ok k => k | Raise _ => 0 end.

Definition base_of_digit (k : Z) : ascii :=
  match index bases k with Ok c => c | Raise _ => "A"%char end.

(** [seq[i]] as a total function for the proofs. *)
Definition char_at (seq : str) (i : Z) : ascii :=
  default "A"%char (seq !! Z.to_nat i).

(** The string that [get_mismatch_seqs] assembles piece by piece:
    [seq[prev:t0] + c0 + seq[t0+1:t1] + c1 + ... + c_last + seq[t_last+1:]]
    for the positions [t0, t1, ...] and the bases [c0, c1, ...]. *)
Fixpoint spliced (seq : str) (prev : Z) (tup : list Z) (mm_bases : list ascii)
  : str :=
  match tup, mm_bases with
  | t :: tup', c :: mm_bases' =>
      slice seq prev t ++ c :: spliced seq (t + 1) tup' mm_bases'
  | _, _ => slice_from seq prev
  end.

(** The [j]-th position and the [j]-th substituted base, as total
    functions for the proofs. *)
Definition nth_pos (tup : list Z) (j : nat) : Z := default 0 (tup !! j).

Definition nth_base (mm_bases : list ascii) (j : nat) : ascii :=
  default "A"%char (mm_bases !! j).

(** The value of [newseq] in [get_mismatch_seqs] after [j] rounds of the
    loop over the substituted bases. *)
Fixpoint spliced_prefix (seq : str) (tup : list Z) (mm_bases : list ascii)
    (j : nat) : str :=
  match j with
  | O => slice_to seq (nth_pos tup 0)
  | S j' =>
      spliced_prefix seq tup mm_bases j'
        ++ nth_base mm_bases j'
             :: slice seq (nth_pos tup j' + 1) (nth_pos tup j)
  end.

(** Positions in ascending order within [prev, n). *)
Fixpoint ascending (n prev : Z) (tup : list Z) : Prop :=
  match tup with
  | [] => True
  | t :: tup' => prev ≤ t < n ∧ ascending n (t + 1) tup'
  end.

(** The substituted bases that the loops of [get_mismatch_seqs] pair with
    the positions [tup]. *)
Definition mismatch_choices (seq : str) (tup : list Z)
    (mm_bases : list ascii) : Prop :=
  Forall2 (λ c t, c ∈ bases ∧ c ≠ char_at seq t) mm_bases tup.

(** [sum(end - start for start, end in selected_bundles)] *)
Definition span_lengths (selected_bundles : list (Z * Z)) : Z :=
  sum ((λ '(start, end_), end_ - start) <$> selected_bundles).

(** Number of positions at which two strings agree. *)
Definition agreements (s1 s2 : str) : Z :=
  sum ((λ _, 1) <$> filter (λ '(c1, c2), c1 = c2) (zip s1 s2)).

(** The string that [get_deletion_seqs] assembles:
    [seq[prev:t0] + seq[t0+1:t1] + ... + seq[t_last+1:]]. *)
Fixpoint deleted (seq : str) (prev : Z) (tup : list Z) : str :=
  match tup with
  | [] => slice_from seq prev
  | t :: tup' => slice seq prev t ++ deleted seq (t + 1) tup'
  end.

(** The string that [get_insertion_seqs] assembles:
    [seq[prev:t0] + b0 + seq[t0:t1] + b1 + ... + b_last + seq[t_last:]]
    for the slots [t0, t1, ...] and the inserted bases [b0, b1, ...]. *)
Fixpoint inserted (seq : str) (prev : Z) (tup : list Z) (ins_bases : list ascii)
  : str :=
  match tup, ins_bases with
  | t :: tup', b :: ins_bases' =>
      slice seq prev t ++ b :: inserted seq t tup' ins_bases'
  | _, _ => slice_from seq prev
  end.

(** The value of [newseq] in [get_insertion_seqs] after [j] rounds of the
    loop over the pairs of neighbouring slots. *)
Fixpoint inserted_prefix (seq : str) (tup : list Z) (ins_bases : list ascii)
    (j : nat) : str :=
  match j with
  | O => slice_to seq (nth_pos tup 0)
  | S j' =>
      inserted_prefix seq tup ins_bases j'
        ++ nth_base ins_bases j'
             :: slice seq (nth_pos tup j') (nth_pos tup j)
  end.

(** Whatever the generator hands out, the computation [m] returns, and
    what it returns satisfies [P]. *)
Definition returns {A} (m : rand A) (P : A → Prop) : Prop :=
  ∀ g, ∃ a g', m g = Ok (a, g') ∧ P a.

(** Whatever the generator hands out, the computation [m] raises [e]. *)
Definition raises {A} (m : rand A) (e : exn) : Prop :=
  ∀ g, m g = Raise e.

(** ** Reasoning about the error monad and loops *)

Section monad.
Context {A B : Type}.

Lemma bind_Ok (a : A) (k : A → result B) : (Ok a ≫= k) = k a.
Proof. reflexivity. Qed.

Lemma bind_Raise (e : exn) (k : A → result B) : (Raise e ≫= k) = Raise e.
Proof. reflexivity. Qed.

Lemma bind_Ok_inv (m : result A) (k : A → result B) (b : B) :
  m ≫= k = Ok b → ∃ a, m = Ok a ∧ k a = Ok b.
Proof. destruct m as [a|e]; [eauto | discriminate]. Qed.

Lemma assert_true_bind (b : bool) (k : unit → result B) :
  b = true → (assert b ≫= k) = k tt.
Proof. intros ->. reflexivity. Qed.

Lemma assert_false_bind (b : bool) (k : unit → result B) :
  b = false → (assert b ≫= k) = Raise AssertionError.
Proof. intros ->. reflexivity. Qed.
End monad.

Section loops.
Context {A S : Type}.
Implicit Types (l : list A) (acc : S) (body : S → A → result S).

Lemma for_app l1 l2 acc body :
  for_ (l1 ++ l2) acc body = acc' ← for_ l1 acc body; for_ l2 acc' body.
Proof.
  revert acc. induction l1 as [|x l1 IH]; intros acc; simpl; [done|].
  destruct (body acc x) as [a|e]; simpl; [apply IH | done].
Qed.

Lemma for_snoc l x acc body :
  for_ (l ++ [x]) acc body = acc' ← for_ l acc body; body acc' x.
Proof.
  rewrite for_app. destruct (for_ l acc body) as [a|e]; simpl; [|done].
  by destruct (body a x).
Qed.

(** A loop whose body keeps an invariant and never raises runs to the
    end and establishes the invariant. *)
Lemma for_invariant (I : S → Prop) l acc body :
  I acc →
  (∀ a x, x ∈ l → I a → ∃ a', body a x = Ok a' ∧ I a') →
  ∃ r, for_ l acc body = Ok r ∧ I r.
Proof.
  revert acc. induction l as [|x l IH]; intros acc Hacc Hbody; simpl.
  - eauto.
  - destruct (Hbody acc x) as (a' & -> & Ha'); [left | done |].
    rewrite bind_Ok. apply IH; [done|].
    intros a y Hy. apply Hbody. by right.
Qed.
End loops.

Section comprehension.
Context {A B : Type}.
Implicit Types (f : A → result B) (l : list A).

Lemma comprehension_total f (g : A → B) l :
  (∀ x, x ∈ l → f x = Ok (g x)) → comprehension f l = Ok (g <$> l).
Proof.
  induction l as [|x l IH]; intros Hf; simpl; [done|].
  rewrite Hf by left. rewrite bind_Ok, IH; [done|].
  intros y Hy. apply Hf. by right.
Qed.

Lemma comprehension_cons f x l :
  comprehension f (x :: l) = y ← f x; ys ← comprehension f l; Ok (y :: ys).
Proof. reflexivity. Qed.

Lemma comprehension_singleton f x :
  comprehension f [x] = y ← f x; Ok [y].
Proof. simpl. by destruct (f x). Qed.

Lemma comprehension_app f l1 l2 :
  comprehension f (l1 ++ l2)
  = ys1 ← comprehension f l1; ys2 ← comprehension f l2; Ok (ys1 ++ ys2).
Proof.
  induction l1 as [|x l1 IH]; simpl.
  - by destruct (comprehension f l2).
  - destruct (f x) as [y|e]; simpl; [|done]. rewrite IH.
    destruct (comprehension f l1) as [ys1|e]; simpl; [|done].
    by destruct (comprehension f l2).
Qed.
End comprehension.

(** A loop whose body adds the set [F x] gathers the union of these sets. *)
Lemma for_union {A} (F : A → strset) (l : list A) (acc : strset)
    (body : strset → A → result strset) :
  (∀ a x, x ∈ l → body a x = Ok (F x ∪ a)) →
  ∃ r, for_ l acc body = Ok r
       ∧ ∀ y, y ∈ r ↔ y ∈ acc ∨ ∃ x, x ∈ l ∧ y ∈ F x.
Proof.
  revert acc. induction l as [|x l IH]; intros acc Hbody; simpl.
  - exists acc. split; [done|]. intros y. split; [by left|].
    intros [?|(x & []%elem_of_nil & _)]. done.
  - rewrite Hbody by left. rewrite bind_Ok.
    destruct (IH (F x ∪ acc)) as (r & -> & Hr).
    { intros a z Hz. apply Hbody. by right. }
    exists r. split; [done|]. intros y. rewrite Hr, elem_of_union. split.
    + intros [[?|?]|(z & ? & ?)]; [right; exists x|by left|right; exists z];
        (split; [|done]); by constructor.
    + intros [?|(z & [->|?]%elem_of_cons & ?)]; [left; by right|left; by left|].
      right. by exists z.
Qed.

(** A loop that only adds [f x] to the set gathers the comprehension. *)
Lemma for_add {A} (f : A → result str) (l : list A) (acc : strset) :
  for_ l acc (λ outset x, y ← f x; Ok ({[ y ]} ∪ outset))
  = ys ← comprehension f l; Ok (list_to_set ys ∪ acc).
Proof.
  revert acc. induction l as [|x l IH]; intros acc; simpl.
  - f_equal. set_solver.
  - destruct (f x) as [y|e]; simpl; [|done]. rewrite IH.
    destruct (comprehension f l) as [ys|e]; simpl; [|done].
    f_equal. set_solver.
Qed.

(** ** Slices, indexing and ranges *)

Section slices.
Context {A : Type}.
Implicit Types (l : list A) (i lo hi : Z).

Lemma len_nonneg l : 0 ≤ len l.
Proof. unfold len. lia. Qed.

Lemma len_app l1 l2 : len (l1 ++ l2) = len l1 + len l2.
Proof. unfold len. rewrite length_app. lia. Qed.

Lemma len_cons x l : len (x :: l) = 1 + len l.
Proof. unfold len. simpl. lia. Qed.

Lemma slice_to_take l hi :
  0 ≤ hi → slice_to l hi = take (Z.to_nat hi) l.
Proof.
  intros Hhi. unfold slice_to, adjust, len.
  destruct (Z.ltb_spec hi 0); [lia|].
  destruct (Z.min_spec hi (Z.of_nat (length l))) as [[? ->]|[? ->]]; [done|].
  rewrite Nat2Z.id. by rewrite !take_ge by lia.
Qed.

Lemma slice_from_drop l lo :
  0 ≤ lo → slice_from l lo = drop (Z.to_nat lo) l.
Proof.
  intros Hlo. unfold slice_from, adjust, len.
  destruct (Z.ltb_spec lo 0); [lia|].
  destruct (Z.min_spec lo (Z.of_nat (length l))) as [[? ->]|[? ->]]; [done|].
  rewrite Nat2Z.id. by rewrite !drop_ge by lia.
Qed.

Lemma slice_take_drop l lo hi :
  0 ≤ lo → 0 ≤ hi →
  slice l lo hi = take (Z.to_nat hi - Z.to_nat lo) (drop (Z.to_nat lo) l).
Proof.
  intros Hlo Hhi. unfold slice, adjust, len.
  destruct (Z.ltb_spec lo 0); [lia|]. destruct (Z.ltb_spec hi 0); [lia|].
  destruct (Z.min_spec lo (Z.of_nat (length l))) as [[? ->]|[? ->]];
    destruct (Z.min_spec hi (Z.of_nat (length l))) as [[? ->]|[? ->]].
  - f_equal. lia.
  - rewrite !take_ge; [done|rewrite length_drop; lia..].
  - rewrite Nat2Z.id. by rewrite !drop_ge, !take_nil by lia.
  - rewrite Nat2Z.id. by rewrite !drop_ge, !take_nil by lia.
Qed.

(** A slice splits a list into the parts before, inside and after. *)
Lemma slice_split l lo hi :
  0 ≤ lo ≤ hi → l = slice_to l lo ++ slice l lo hi ++ slice_from l hi.
Proof.
  intros H. rewrite slice_to_take, slice_from_drop, slice_take_drop by lia.
  rewrite <-(take_drop (Z.to_nat lo) l) at 1. f_equal.
  rewrite <-(take_drop (Z.to_nat hi - Z.to_nat lo) (drop (Z.to_nat lo) l)) at 1.
  f_equal. rewrite drop_drop. f_equal. lia.
Qed.

Lemma len_slice_to l hi : 0 ≤ hi ≤ len l → len (slice_to l hi) = hi.
Proof.
  intros H. rewrite slice_to_take by lia. unfold len in *.
  rewrite length_take. lia.
Qed.

Lemma len_slice_from l lo : 0 ≤ lo ≤ len l → len (slice_from l lo) = len l - lo.
Proof.
  intros H. rewrite slice_from_drop by lia. unfold len in *.
  rewrite length_drop. lia.
Qed.

Lemma len_slice l lo hi :
  0 ≤ lo ≤ hi → hi ≤ len l → len (slice l lo hi) = hi - lo.
Proof.
  intros H1 H2. rewrite slice_take_drop by lia. unfold len in *.
  rewrite length_take, length_drop. lia.
Qed.

Lemma index_Ok l i x :
  0 ≤ i → l !! Z.to_nat i = Some x → index l i = Ok x.
Proof.
  intros Hi Hx. unfold index, len.
  apply lookup_lt_Some in Hx as Hlt.
  destruct (Z.ltb_spec i 0); [lia|].
  destruct (Z.ltb_spec i 0); [lia|].
  destruct (Z.leb_spec (Z.of_nat (length l)) i); [lia|]. simpl.
  by rewrite Hx.
Qed.

Lemma index_last l x : index (l ++ [x]) (-1) = Ok x.
Proof.
  unfold index, len. rewrite length_app. simpl.
  replace (Z.of_nat (length l + 1) + -1) with (Z.of_nat (length l)) by lia.
  destruct (Z.ltb_spec (Z.of_nat (length l)) 0); [lia|].
  destruct (Z.leb_spec (Z.of_nat (length l + 1)) (Z.of_nat (length l)));
    [lia|]. simpl.
  rewrite Nat2Z.id. by rewrite list_lookup_middle.
Qed.

Lemma index_neg1 l x :
  l !! (length l - 1)%nat = Some x → index l (-1) = Ok x ∧ l ≠ [].
Proof.
  intros Hx. apply lookup_lt_Some in Hx as Hlt.
  split; [|by destruct l; simpl in *; [lia|]].
  unfold index, len. simpl.
  destruct (Z.ltb_spec (Z.of_nat (length l) + -1) 0); [lia|].
  destruct (Z.leb_spec (Z.of_nat (length l)) (Z.of_nat (length l) + -1));
    [lia|]. simpl.
  replace (Z.to_nat (Z.of_nat (length l) + -1)) with (length l - 1)%nat
    by lia.
  by rewrite Hx.
Qed.

Lemma index_nil i : index (@nil A) i = Raise IndexError.
Proof.
  unfold index, len. simpl. rewrite Z.add_0_l.
  assert ((if i <? 0 then i else i) = i) as -> by (by destruct (i <? 0)).
  by destruct ((i <? 0) || (Z.of_nat 0 <=? i)).
Qed.
End slices.

Lemma elem_of_range start stop i :
  i ∈ range start stop ↔ start ≤ i < stop.
Proof.
  unfold range. rewrite list_elem_of_fmap. split.
  - intros (k & -> & Hk%elem_of_seq). lia.
  - intros H. exists (Z.to_nat (i - start)). split; [lia|].
    apply elem_of_seq. lia.
Qed.

Lemma range_lookup start stop (k : nat) :
  Z.of_nat k < stop - start → range start stop !! k = Some (start + Z.of_nat k).
Proof.
  intros H. unfold range. rewrite list_lookup_fmap, lookup_seq_lt by lia.
  done.
Qed.

Lemma len_range start stop : start ≤ stop → len (range start stop) = stop - start.
Proof.
  intros H. unfold len, range. rewrite length_fmap, length_seq. lia.
Qed.

(** ** Cartesian products *)

Lemma elem_of_product {A} (ls : list (list A)) (xs : list A) :
  xs ∈ product ls ↔ Forall2 (λ x l, x ∈ l) xs ls.
Proof.
  revert xs. induction ls as [|l ls IH]; intros xs; simpl.
  - rewrite list_elem_of_singleton. split; [intros ->; constructor|].
    by inversion 1.
  - rewrite list_elem_of_bind. split.
    + intros (x & (ys & -> & Hys)%list_elem_of_fmap & Hx).
      constructor; [done|]. by apply IH.
    + inversion 1 as [|x ? ys ? Hx Hys]; subst. exists x. split; [|done].
      apply list_elem_of_fmap. exists ys. split; [done|]. by apply IH.
Qed.

Lemma elem_of_product_replicate {A} (n : nat) (l xs : list A) :
  xs ∈ product (replicate n l) ↔ length xs = n ∧ Forall (λ x, x ∈ l) xs.
Proof.
  rewrite elem_of_product. revert xs.
  induction n as [|n IH]; intros xs; simpl.
  - split.
    + inversion 1. by split.
    + intros [->%nil_length_inv _]. constructor.
  - split.
    + inversion 1 as [|x ? ys ? Hx Hys]; subst.
      apply IH in Hys as [? ?]. simpl. split; [lia|]. by constructor.
    + destruct xs as [|x xs]; simpl; intros [Hlen HF]; [lia|].
      apply Forall_cons in HF as [? ?]. constructor; [done|].
      apply IH. split; [lia | done].
Qed.

(** [itertools.product(bases, repeat=n)] lists the sequences of length
    [n] over the alphabet. *)
Lemma product_repeat_bases (n : Z) :
  0 ≤ n →
  ∃ all, product_repeat bases n = Ok all
         ∧ ∀ r, r ∈ all ↔ is_dna r ∧ len r = n.
Proof.
  intros Hn. unfold product_repeat.
  destruct (Z.ltb_spec n 0); [lia|]. eexists. split; [done|].
  intros r. rewrite elem_of_product_replicate. unfold is_dna, len. 
  split; intros [? ?]; (split; [done || lia | done || lia]).
Qed.

(** ** Complements *)

Lemma elem_of_bases c :
  c ∈ bases ↔ c = "A"%char ∨ c = "C"%char ∨ c = "G"%char ∨ c = "T"%char.
Proof. unfold bases, lit. simpl. rewrite !elem_of_cons, elem_of_nil. tauto. Qed.

Lemma complements_get_base c :
  c ∈ bases → complements_get c = Ok (compl c).
Proof.
  rewrite elem_of_bases. intros [->|[->|[->| ->]]]; reflexivity.
Qed.

Lemma compl_base c : c ∈ bases → compl c ∈ bases.
Proof.
  rewrite !elem_of_bases.
  intros [->|[->|[->| ->]]]; vm_compute; tauto.
Qed.

Lemma compl_involutive c : c ∈ bases → compl (compl c) = c.
Proof.
  rewrite elem_of_bases. intros [->|[->|[->| ->]]]; reflexivity.
Qed.

Lemma compl_ne c : c ∈ bases → compl c ≠ c.
Proof.
  rewrite elem_of_bases. intros [->|[->|[->| ->]]]; discriminate.
Qed.

(** Closed sequences are checked letter by letter. *)
Ltac dna_literal :=
  unfold is_dna, lit; simpl;
  repeat (apply Forall_cons; split; [apply elem_of_bases; tauto|]);
  constructor.

Lemma is_dna_app s1 s2 : is_dna (s1 ++ s2) ↔ is_dna s1 ∧ is_dna s2.
Proof. apply Forall_app. Qed.

Lemma is_dna_take n s : is_dna s → is_dna (take n s).
Proof. apply Forall_take. Qed.

Lemma is_dna_drop n s : is_dna s → is_dna (drop n s).
Proof. apply Forall_drop. Qed.

Lemma is_dna_slice s lo hi : is_dna s → is_dna (slice s lo hi).
Proof. intros H. unfold slice. by apply is_dna_take, is_dna_drop. Qed.

Lemma is_dna_slice_to s hi : is_dna s → is_dna (slice_to s hi).
Proof. apply is_dna_take. Qed.

Lemma is_dna_slice_from s lo : is_dna s → is_dna (slice_from s lo).
Proof. apply is_dna_drop. Qed.

Lemma is_dna_compl s : is_dna s → is_dna (compl <$> s).
Proof.
  intros H. apply Forall_fmap. eapply Forall_impl; [done|].
  intros c Hc. by apply compl_base.
Qed.

Lemma forward_complement_dna s :
  is_dna s → forward_complement s = Ok (compl <$> s).
Proof.
  intros H. apply comprehension_total. intros c Hc.
  apply complements_get_base. unfold is_dna in H.
  rewrite Forall_forall in H. by apply H.
Qed.

Lemma compl_compl_dna s : is_dna s → compl <$> (compl <$> s) = s.
Proof.
  induction 1 as [|c s Hc Hs IH]; csimpl; [done|].
  by rewrite compl_involutive, IH.
Qed.

Lemma complement_span_dna seq start end_ :
  is_dna seq →
  complement_span seq start end_
  = Ok (slice_to seq start ++ (compl <$> slice seq start end_)
          ++ slice_from seq end_).
Proof.
  intros H. unfold complement_span.
  by rewrite forward_complement_dna by by apply is_dna_slice.
Qed.

(** The three parts of a sequence whose window was replaced. *)
Lemma slices_of_replaced_span (seq mid : str) (start end_ : Z) :
  0 ≤ start ≤ end_ → end_ ≤ len seq → len mid = end_ - start →
  let newseq := slice_to seq start ++ mid ++ slice_from seq end_ in
  slice_to newseq start = slice_to seq start
  ∧ slice newseq start end_ = mid
  ∧ slice_from newseq end_ = slice_from seq end_.
Proof.
  intros H1 H2 Hmid newseq. subst newseq.
  rewrite !slice_to_take, !slice_from_drop, slice_take_drop by lia.
  unfold len in *.
  assert (length (take (Z.to_nat start) seq) = Z.to_nat start) as Hl
    by (rewrite length_take; lia).
  split; [|split].
  - by rewrite take_app_length'.
  - rewrite drop_app_length' by done. by rewrite take_app_length' by lia.
  - rewrite drop_app_ge by lia. rewrite drop_app_length'; [done|]. lia.
Qed.

Lemma get_stretch_of_complement_seqs_dna seq w :
  is_dna seq →
  get_stretch_of_complement_seqs seq w
  = Ok (list_to_set
          ((λ i, slice_to seq i ++ (compl <$> slice seq i (i + w))
                   ++ slice_from seq (i + w))
             <$> range 0 (len seq - w + 1))).
Proof.
  intros H. unfold get_stretch_of_complement_seqs.
  rewrite (for_add (λ i, complement_span seq i (i + w))).
  erewrite comprehension_total;
    [|intros i _; by apply complement_span_dna].
  rewrite bind_Ok. f_equal. set_solver.
Qed.

(** C7: on a sequence over the alphabet, the forward complement undoes
    itself; hence complementing the window [i, i+w) of [seq] and then the
    same window of the outcome gives [seq] back.  The once-complemented
    sequence is an element of [get_stretch_of_complement_seqs seq w], and
    [seq] is an element of the stretch set of that sequence. *)
Theorem stretch_complement_round_trip (seq : str) (w i : Z) :
  is_dna seq →
  1 ≤ w ≤ len seq →
  0 ≤ i ≤ len seq - w →
  (∃ comp, forward_complement seq = Ok comp
           ∧ forward_complement comp = Ok seq)
  ∧ ∃ once, complement_span seq i (i + w) = Ok once
            ∧ complement_span once i (i + w) = Ok seq
            ∧ (∃ S1, get_stretch_of_complement_seqs seq w = Ok S1
                     ∧ once ∈ S1)
            ∧ (∃ S2, get_stretch_of_complement_seqs once w = Ok S2
                     ∧ seq ∈ S2).
Proof.
  intros Hdna Hw Hi. split.
  { exists (compl <$> seq). split; [by apply forward_complement_dna|].
    rewrite forward_complement_dna by by apply is_dna_compl.
    by rewrite compl_compl_dna. }
  set (mid := compl <$> slice seq i (i + w)).
  set (once := slice_to seq i ++ mid ++ slice_from seq (i + w)).
  assert (len mid = i + w - i) as Hmid.
  { unfold mid, len. rewrite length_fmap. apply len_slice; lia. }
  assert (is_dna once) as Hdna'.
  { unfold once, mid. rewrite !is_dna_app.
    auto using is_dna_slice_to, is_dna_slice_from, is_dna_compl, is_dna_slice. }
  assert (len once = len seq) as Hlen.
  { unfold once. rewrite !len_app, Hmid, len_slice_to, len_slice_from; lia. }
  destruct (slices_of_replaced_span seq mid i (i + w)) as (Hto & Hin & Hfrom);
    [lia..|]. fold once in Hto, Hin, Hfrom.
  assert (complement_span once i (i + w) = Ok seq) as Hback.
  { rewrite complement_span_dna by done. rewrite Hto, Hin, Hfrom. unfold mid.
    rewrite compl_compl_dna by by apply is_dna_slice.
    f_equal. symmetry. apply slice_split. lia. }
  exists once. split; [by apply complement_span_dna|]. split; [done|]. split.
  - eexists. split; [by apply get_stretch_of_complement_seqs_dna|].
    apply elem_of_list_to_set, list_elem_of_fmap. exists i.
    split; [done|]. apply elem_of_range. lia.
  - eexists. split; [by apply get_stretch_of_complement_seqs_dna|].
    apply elem_of_list_to_set, list_elem_of_fmap. exists i. split.
    + rewrite complement_span_dna in Hback by done. congruence.
    + apply elem_of_range. lia.
Qed.

Lemma stretch_complement_round_trip_witness :
  (∃ comp, forward_complement (lit "ACGTT") = Ok comp
           ∧ forward_complement comp = Ok (lit "ACGTT"))
  ∧ ∃ once, complement_span (lit "ACGTT") 1 (1 + 2) = Ok once
            ∧ complement_span once 1 (1 + 2) = Ok (lit "ACGTT")
            ∧ (∃ S1, get_stretch_of_complement_seqs (lit "ACGTT") 2 = Ok S1
                     ∧ once ∈ S1)
            ∧ (∃ S2, get_stretch_of_complement_seqs once 2 = Ok S2
                     ∧ lit "ACGTT" ∈ S2).
Proof.
  apply (stretch_complement_round_trip (lit "ACGTT") 2 1).
  - dna_literal.
  - vm_compute. split; discriminate.
  - vm_compute. split; discriminate.
Defined.

(** ** Base-4 encoding *)

Lemma str_index_base c :
  c ∈ bases →
  str_index bases c = Ok (digit_of_base c)
  ∧ 0 ≤ digit_of_base c < 4
  ∧ base_of_digit (digit_of_base c) = c.
Proof.
  rewrite elem_of_bases. intros [->|[->|[->| ->]]]; vm_compute; intuition congruence.
Qed.

Lemma index_bases_digit k :
  0 ≤ k < 4 →
  index bases k = Ok (base_of_digit k)
  ∧ base_of_digit k ∈ bases
  ∧ digit_of_base (base_of_digit k) = k.
Proof.
  intros Hk.
  assert (k = 0 ∨ k = 1 ∨ k = 2 ∨ k = 3) as [->|[->|[->| ->]]] by lia;
    (split; [reflexivity|]); (split; [|reflexivity]);
    apply elem_of_bases; vm_compute; tauto.
Qed.

Lemma enumerate_snoc {A} (l : list A) (x : A) :
  enumerate (l ++ [x]) = enumerate l ++ [(len l, x)].
Proof.
  unfold enumerate, len. rewrite imap_app. simpl. by rewrite Nat.add_0_r.
Qed.

Lemma sum_snoc (l : list Z) (x : Z) : sum (l ++ [x]) = sum l + x.
Proof. unfold sum. by rewrite foldl_app. Qed.

Lemma shiftl_two_bits (k L : Z) : 0 ≤ L → Z.shiftl k (2 * L) = k * 4 ^ L.
Proof.
  intros HL. rewrite Z.shiftl_mul_pow2 by lia.
  by rewrite Z.pow_mul_r by lia.
Qed.

(** The digit that [num2dna] extracts with its mask and shift. *)
Lemma masked_digit (n i : Z) :
  0 ≤ i → Z.shiftr (Z.land n (Z.shiftl 3 i)) i = (n / 2 ^ i) `mod` 4.
Proof.
  intros Hi. rewrite Z.shiftr_land, Z.shiftr_shiftl_l by lia.
  rewrite Z.sub_diag, Z.shiftl_0_r, Z.shiftr_div_pow2 by lia.
  change 3 with (Z.ones 2). rewrite Z.land_ones by lia. done.
Qed.

Lemma dna2num_cons (c : ascii) (s : str) (v : Z) :
  c ∈ bases →
  dna2num s = Ok v →
  dna2num (c :: s) = Ok (v + digit_of_base c * 4 ^ len s).
Proof.
  intros Hc Hs. unfold dna2num in *.
  rewrite reverse_cons, enumerate_snoc, comprehension_app.
  destruct (comprehension _ (enumerate (reverse s))) as [terms|e];
    [|discriminate].
  rewrite bind_Ok in Hs. injection Hs as <-.
  rewrite bind_Ok, comprehension_singleton.
  destruct (str_index_base c Hc) as (-> & _ & _). rewrite !bind_Ok.
  rewrite sum_snoc. f_equal. f_equal.
  unfold len. rewrite length_reverse. apply shiftl_two_bits. lia.
Qed.

Lemma dna2num_dna (s : str) :
  is_dna s → ∃ v, dna2num s = Ok v ∧ 0 ≤ v < 4 ^ len s.
Proof.
  induction 1 as [|c s Hc Hs (v & Hv & Hbound)].
  - exists 0. split; [reflexivity|]. unfold len. simpl. lia.
  - eexists. split; [by apply dna2num_cons|].
    destruct (str_index_base c Hc) as (_ & Hd & _).
    rewrite len_cons, Z.pow_add_r, Z.pow_1_r by (pose proof (len_nonneg s); lia).
    nia.
Qed.

Lemma range_step_down (L : nat) :
  range_step (2 * Z.of_nat L - 2) (-1) (-2)
  = Ok ((λ k : nat, 2 * Z.of_nat k) <$> reverse (seq 0 L)).
Proof.
  unfold range_step. simpl.
  replace ((2 * Z.of_nat L - 2 - -1 - -2 - 1) / (- (-2))) with (Z.of_nat L)
    by (apply Z.div_unique with 0; lia).
  rewrite Nat2Z.id. f_equal.
  induction L as [|L IH]; [done|].
  change (seq 0 (S L)) with (0%nat :: seq 1 L) at 1.
  rewrite seq_S, reverse_app, <-fmap_S_seq. csimpl.
  rewrite <-list_fmap_compose.
  f_equal; [lia|]. rewrite <-IH.
  apply list_fmap_ext. intros _ k _. simpl. lia.
Qed.

Lemma num2dna_S (n : Z) (L : nat) (rest : str) :
  num2dna n (Z.of_nat L) = Ok rest →
  num2dna n (Z.of_nat (S L))
  = Ok (base_of_digit ((n / 4 ^ Z.of_nat L) `mod` 4) :: rest).
Proof.
  unfold num2dna. rewrite !range_step_down, !bind_Ok. intros Hrest.
  rewrite seq_S, reverse_app.
  change (reverse [(0 + L)%nat] ++ reverse (seq 0 L))
    with (L :: reverse (seq 0 L)).
  rewrite fmap_cons, comprehension_cons, Hrest.
  rewrite masked_digit by lia.
  rewrite Z.pow_mul_r by lia. change (2 ^ 2) with 4.
  pose proof (Z.mod_pos_bound (n / 4 ^ Z.of_nat L) 4 ltac:(lia)) as Hd.
  by destruct (index_bases_digit _ Hd) as (-> & _ & _).
Qed.

Lemma digit_low_part (a k i L : Z) :
  0 ≤ i < L → ((a + k * 4 ^ L) / 4 ^ i) `mod` 4 = (a / 4 ^ i) `mod` 4.
Proof.
  intros Hi.
  assert (∃ d, 0 ≤ d ∧ L = i + 1 + d) as (d & Hd & ->)
    by (exists (L - i - 1); lia).
  rewrite !Z.pow_add_r, Z.pow_1_r by lia.
  replace (a + k * (4 ^ i * 4 * 4 ^ d)) with (a + k * 4 ^ d * 4 * 4 ^ i)
    by lia.
  pose proof (Z.pow_pos_nonneg 4 i ltac:(lia) ltac:(lia)).
  rewrite Z.div_add by lia. by rewrite Z.mod_add by lia.
Qed.

(** [num2dna] reads only the lowest [2 * dnalen] bits. *)
Lemma num2dna_low_bits (a k : Z) (L : nat) :
  num2dna (a + k * 4 ^ Z.of_nat L) (Z.of_nat L) = num2dna a (Z.of_nat L).
Proof.
  unfold num2dna. rewrite range_step_down, !bind_Ok.
  assert (∀ l : list nat,
            Forall (λ i, (i < L)%nat) l →
            comprehension
              (λ i, index bases
                      (Z.shiftr (Z.land (a + k * 4 ^ Z.of_nat L) (Z.shiftl 3 i)) i))
              ((λ i : nat, 2 * Z.of_nat i) <$> l)
            = comprehension
                (λ i, index bases (Z.shiftr (Z.land a (Z.shiftl 3 i)) i))
                ((λ i : nat, 2 * Z.of_nat i) <$> l)) as Hext.
  { induction 1 as [|i l Hi _ IH]; [done|].
    rewrite fmap_cons, !comprehension_cons, IH, !masked_digit by lia.
    rewrite Z.pow_mul_r by lia. change (2 ^ 2) with 4.
    by rewrite digit_low_part by lia. }
  apply Hext. apply Forall_forall. intros i Hi%elem_of_reverse%elem_of_seq. lia.
Qed.

(** C9: [dna2num] and [num2dna] are mutually inverse: a sequence over the
    alphabet is recovered from its number and its length, and for a
    length of at least one every number below [4 ^ length] is recovered
    from its sequence. *)
Theorem dna2num_num2dna_inverse (s : str) (n L : Z) :
  is_dna s →
  1 ≤ L →
  0 ≤ n < 4 ^ L →
  (∃ v, dna2num s = Ok v ∧ num2dna v (len s) = Ok s)
  ∧ (∃ t, num2dna n L = Ok t ∧ dna2num t = Ok n).
Proof.
  intros Hs HL Hn. split.
  - clear n L HL Hn. induction Hs as [|c s Hc Hs (v & Hv & Hback)].
    + exists 0. split; reflexivity.
    + exists (v + digit_of_base c * 4 ^ len s).
      split; [by apply dna2num_cons|].
      destruct (dna2num_dna s Hs) as (v' & Hv' & Hbound).
      assert (v' = v) as -> by congruence.
      destruct (str_index_base c Hc) as (_ & Hd & Hbase).
      replace (len (c :: s)) with (Z.of_nat (S (length s)))
        by (unfold len; simpl; lia).
      unfold len in *. erewrite num2dna_S; [|by rewrite num2dna_low_bits].
      do 2 f_equal. rewrite <-Hbase at 2. f_equal.
      rewrite Z.div_add, Z.div_small, Z.add_0_l, Z.mod_small by lia. done.
  - clear s Hs.
    assert (∀ (K : nat) m,
              0 ≤ m < 4 ^ Z.of_nat K →
              ∃ t, num2dna m (Z.of_nat K) = Ok t
                   ∧ dna2num t = Ok m ∧ length t = K ∧ is_dna t) as Hgen.
    { induction K as [|K IH]; intros m Hm.
      - exists []. simpl in Hm. assert (m = 0) as -> by lia.
        repeat split; try reflexivity. constructor.
      - pose proof (Z.pow_pos_nonneg 4 (Z.of_nat K) ltac:(lia) ltac:(lia)) as Hpos.
        rewrite Nat2Z.inj_succ, Z.pow_succ_r in Hm by lia.
        destruct (IH (m `mod` 4 ^ Z.of_nat K)) as (t & Ht & Hnum & Hlen & Hdna).
        { apply Z.mod_pos_bound. lia. }
        assert (0 ≤ m / 4 ^ Z.of_nat K < 4) as Hq.
        { split; [apply Z.div_pos; lia|].
          apply Z.div_lt_upper_bound; lia. }
        destruct (index_bases_digit _ Hq) as (_ & Hb & Hdigit).
        exists (base_of_digit (m / 4 ^ Z.of_nat K) :: t).
        split; [|split; [|split]].
        + erewrite num2dna_S.
          * by rewrite Z.mod_small by lia.
          * rewrite <-Ht.
            rewrite (Z.div_mod m (4 ^ Z.of_nat K)) at 1 by lia.
            rewrite (Z.mul_comm (4 ^ Z.of_nat K)), Z.add_comm.
            apply num2dna_low_bits.
        + erewrite dna2num_cons by done. f_equal.
          unfold len. rewrite Hlen, Hdigit.
          rewrite (Z.div_mod m (4 ^ Z.of_nat K)) at 3 by lia. lia.
        + simpl. by rewrite Hlen.
        + by constructor. }
    destruct (Hgen (Z.to_nat L) n) as (t & Ht & Hnum & _);
      [by rewrite Z2Nat.id by lia|].
    exists t. rewrite Z2Nat.id in Ht by lia. done.
Qed.

Lemma dna2num_num2dna_inverse_witness :
  (∃ v, dna2num (lit "GATTACA") = Ok v
        ∧ num2dna v (len (lit "GATTACA")) = Ok (lit "GATTACA"))
  ∧ (∃ t, num2dna 27 4 = Ok t ∧ dna2num t = Ok 27).
Proof.
  apply (dna2num_num2dna_inverse (lit "GATTACA") 27 4).
  - dna_literal.
  - lia.
  - lia.
Defined.

(** ** Combinations of positions *)

Lemma range_cons (a n : Z) : a < n → range a n = a :: range (a + 1) n.
Proof.
  intros H. unfold range.
  replace (Z.to_nat (n - a)) with (S (Z.to_nat (n - (a + 1)))) by lia.
  change (seq 0 (S ?m)) with (0%nat :: seq 1 m).
  rewrite <-fmap_S_seq. csimpl. rewrite <-list_fmap_compose.
  f_equal; [lia|]. apply list_fmap_ext. intros _ k _. simpl. lia.
Qed.

Lemma range_nil (a n : Z) : n ≤ a → range a n = [].
Proof. intros H. unfold range. by replace (Z.to_nat (n - a)) with 0%nat by lia. Qed.

Lemma ascending_weaken (n prev prev' : Z) (tup : list Z) :
  prev' ≤ prev → ascending n prev tup → ascending n prev' tup.
Proof. destruct tup; simpl; [done|]. intros ? [? ?]. split; [lia | done]. Qed.

Lemma combinations_nat_range (a n : Z) (k : nat) (tup : list Z) :
  tup ∈ combinations_nat (range a n) k →
  length tup = k ∧ ascending n a tup.
Proof.
  remember (Z.to_nat (n - a)) as m eqn:Hm.
  revert a k tup Hm. induction m as [|m IH]; intros a k tup Hm.
  - rewrite range_nil by lia. destruct k; simpl.
    + intros ->%list_elem_of_singleton. done.
    + intros []%elem_of_nil.
  - rewrite range_cons by lia. destruct k as [|k]; simpl.
    + intros ->%list_elem_of_singleton. done.
    + rewrite elem_of_app, list_elem_of_fmap.
      intros [(tup' & -> & Htup')|Htup].
      * apply IH in Htup' as [? ?]; [|lia]. simpl. split; [lia|].
        split; [lia | done].
      * apply IH in Htup as [? ?]; [|lia]. split; [done|].
        eapply ascending_weaken; [|done]. lia.
Qed.

(** ** Hamming distance *)

Lemma sum_app (l1 l2 : list Z) : sum (l1 ++ l2) = sum l1 + sum l2.
Proof.
  induction l2 as [|x l2 IH] using rev_ind.
  - rewrite app_nil_r. unfold sum at 3. simpl. lia.
  - rewrite app_assoc, !sum_snoc, IH. lia.
Qed.

Lemma sum_cons (x : Z) (l : list Z) : sum (x :: l) = x + sum l.
Proof. change (x :: l) with ([x] ++ l). rewrite sum_app. by unfold sum at 1. Qed.

Lemma hamming_nil_r s : simple_hamming_distance s [] = 0.
Proof. by destruct s. Qed.

Lemma hamming_cons c1 c2 s1 s2 :
  simple_hamming_distance (c1 :: s1) (c2 :: s2)
  = (if decide (c1 = c2) then 0 else 1) + simple_hamming_distance s1 s2.
Proof.
  unfold simple_hamming_distance. simpl. rewrite filter_cons.
  destruct (decide (c1 = c2)); simpl.
  - by rewrite decide_False by tauto.
  - rewrite decide_True by done. by rewrite fmap_cons, sum_cons.
Qed.

Lemma hamming_app s1 s2 t1 t2 :
  length s1 = length t1 →
  simple_hamming_distance (s1 ++ s2) (t1 ++ t2)
  = simple_hamming_distance s1 t1 + simple_hamming_distance s2 t2.
Proof.
  revert t1. induction s1 as [|c s1 IH]; intros [|d t1] Hlen;
    simplify_eq/=; [done|].
  rewrite !hamming_cons, IH by done. lia.
Qed.

Lemma hamming_same s : simple_hamming_distance s s = 0.
Proof.
  induction s as [|c s IH]; [done|].
  by rewrite hamming_cons, decide_True, IH.
Qed.

Lemma agreements_cons c1 c2 s1 s2 :
  agreements (c1 :: s1) (c2 :: s2)
  = (if decide (c1 = c2) then 1 else 0) + agreements s1 s2.
Proof.
  unfold agreements. simpl. rewrite filter_cons.
  destruct (decide (c1 = c2)); simpl.
  - apply (sum_cons 1).
  - done.
Qed.

Lemma agreements_app s1 s2 t1 t2 :
  length s1 = length t1 →
  agreements (s1 ++ s2) (t1 ++ t2) = agreements s1 t1 + agreements s2 t2.
Proof.
  revert t1. induction s1 as [|c s1 IH]; intros [|d t1] Hlen;
    simplify_eq/=; [done|].
  rewrite !agreements_cons, IH by done. lia.
Qed.

Lemma agreements_same s : agreements s s = len s.
Proof.
  induction s as [|c s IH]; [done|].
  rewrite agreements_cons, decide_True, IH, len_cons by done. done.
Qed.

Lemma agreements_bounds s1 s2 :
  0 ≤ agreements s1 s2 ≤ len s1.
Proof.
  revert s2. induction s1 as [|c s1 IH]; intros [|d s2].
  - done.
  - done.
  - pose proof (len_nonneg (c :: s1)). unfold agreements. simpl.
    unfold sum. simpl. lia.
  - rewrite agreements_cons, len_cons. specialize (IH s2).
    destruct (decide (c = d)); lia.
Qed.

Lemma agreements_hamming s1 s2 :
  length s1 = length s2 →
  agreements s1 s2 + simple_hamming_distance s1 s2 = len s1.
Proof.
  revert s2. induction s1 as [|c s1 IH]; intros [|d s2] Hlen;
    simplify_eq/=; [done|].
  rewrite agreements_cons, hamming_cons, len_cons. specialize (IH s2 ltac:(done)).
  destruct (decide (c = d)); lia.
Qed.

(** ** Mismatches *)

Lemma slice_from_cons (seq : str) (t : Z) :
  0 ≤ t < len seq →
  slice_from seq t = char_at seq t :: slice_from seq (t + 1).
Proof.
  intros Ht. rewrite !slice_from_drop by lia. unfold char_at, len in *.
  destruct (lookup_lt_is_Some_2 seq (Z.to_nat t)) as [c Hc]; [lia|].
  rewrite Hc. simpl. replace (Z.to_nat (t + 1)) with (S (Z.to_nat t)) by lia.
  by apply drop_S.
Qed.

Lemma slice_from_split (seq : str) (prev t : Z) :
  0 ≤ prev ≤ t → slice_from seq prev = slice seq prev t ++ slice_from seq t.
Proof.
  intros H. rewrite !slice_from_drop, slice_take_drop by lia.
  rewrite <-(take_drop (Z.to_nat t - Z.to_nat prev) (drop (Z.to_nat prev) seq))
    at 1.
  f_equal. rewrite drop_drop. f_equal. lia.
Qed.

Lemma slice_0 {A} (l : list A) (hi : Z) : slice l 0 hi = slice_to l hi.
Proof.
  unfold slice, slice_to.
  assert (adjust (len l) 0 = 0) as ->
    by (unfold adjust; simpl; pose proof (len_nonneg l); lia).
  by rewrite Z.sub_0_r.
Qed.

Lemma spliced_drop (seq : str) (prev : Z) (tup : list Z)
    (mm_bases : list ascii) (j : nat) (t : Z) (c : ascii) :
  tup !! j = Some t →
  mm_bases !! j = Some c →
  spliced seq prev (drop j tup) (drop j mm_bases)
  = slice seq prev t
      ++ c :: spliced seq (t + 1) (drop (S j) tup) (drop (S j) mm_bases).
Proof.
  intros Ht Hc. by rewrite (drop_S tup t j), (drop_S mm_bases c j).
Qed.

Section spliced.
Variable seq : str.

Lemma len_spliced (prev : Z) (tup : list Z) (mm_bases : list ascii) :
  0 ≤ prev ≤ len seq →
  ascending (len seq) prev tup →
  len (spliced seq prev tup mm_bases) = len seq - prev.
Proof.
  revert prev mm_bases. induction tup as [|t tup IH]; intros prev mm Hprev Hasc.
  - simpl. by apply len_slice_from.
  - destruct mm as [|c mm]; simpl; [by apply len_slice_from|].
    destruct Hasc as [Ht Hasc].
    rewrite len_app, len_cons, len_slice, IH by (lia || done). lia.
Qed.

Lemma hamming_spliced (prev : Z) (tup : list Z) (mm_bases : list ascii) :
  0 ≤ prev ≤ len seq →
  ascending (len seq) prev tup →
  Forall2 (λ c t, c ≠ char_at seq t) mm_bases tup →
  simple_hamming_distance (spliced seq prev tup mm_bases)
                          (slice_from seq prev)
  = len tup.
Proof.
  intros Hprev Hasc Hmm. revert prev Hprev Hasc.
  induction Hmm as [|c t mm tup Hc Hmm IH]; intros prev Hprev Hasc.
  - apply hamming_same.
  - destruct Hasc as [Ht Hasc]. simpl.
    rewrite (slice_from_split seq prev t), (slice_from_cons seq t) by lia.
    rewrite hamming_app, hamming_same, hamming_cons by done.
    rewrite decide_False, IH, len_cons by (lia || done). lia.
Qed.

Lemma is_dna_spliced (prev : Z) (tup : list Z) (mm_bases : list ascii) :
  is_dna seq → is_dna mm_bases → is_dna (spliced seq prev tup mm_bases).
Proof.
  intros Hseq Hmm. revert prev tup.
  induction Hmm as [|c mm Hc Hmm IH]; intros prev [|t tup]; simpl;
    try by apply is_dna_slice_from.
  apply is_dna_app. split; [by apply is_dna_slice|].
  apply Forall_cons. split; [done | apply IH].
Qed.

(** The loop of [get_mismatch_seqs] over the substituted bases builds
    [spliced] from left to right. *)
Section loop.
Variables (tup : list Z) (mm_bases : list ascii).
Hypothesis same_length : length mm_bases = length tup.

Lemma tup_lookup (j : nat) : (j < length tup)%nat → tup !! j = Some (nth_pos tup j).
Proof.
  intros Hj. unfold nth_pos.
  by destruct (lookup_lt_is_Some_2 tup j Hj) as [t ->].
Qed.

Lemma mm_bases_lookup (j : nat) :
  (j < length tup)%nat → mm_bases !! j = Some (nth_base mm_bases j).
Proof.
  intros Hj. unfold nth_base.
  destruct (lookup_lt_is_Some_2 mm_bases j) as [c ->]; [lia | done].
Qed.

Lemma mismatch_loop_prefix (j : nat) :
  (j < length tup)%nat →
  for_ (enumerate (take j mm_bases)) (slice_to seq (nth_pos tup 0))
    (λ newseq '(i, c),
       ti ← index tup i;
       ti1 ← index tup (i + 1);
       Ok (newseq ++ c :: slice seq (ti + 1) ti1))
  = Ok (spliced_prefix seq tup mm_bases j).
Proof.
  induction j as [|j IH]; intros Hj; [done|].
  rewrite (take_S_r _ _ (nth_base mm_bases j)) by (apply mm_bases_lookup; lia).
  rewrite enumerate_snoc, for_snoc, IH, bind_Ok by lia.
  unfold len. rewrite length_take_le by lia.
  assert (index tup (Z.of_nat j) = Ok (nth_pos tup j)) as ->.
  { apply index_Ok; [lia|]. rewrite Nat2Z.id. apply tup_lookup. lia. }
  assert (index tup (Z.of_nat j + 1) = Ok (nth_pos tup (S j))) as ->.
  { apply index_Ok; [lia|].
    replace (Z.to_nat (Z.of_nat j + 1)) with (S j) by lia.
    by apply tup_lookup. }
  done.
Qed.

Lemma spliced_prefix_rest (j : nat) :
  (j < length tup)%nat →
  spliced_prefix seq tup mm_bases j
    ++ nth_base mm_bases j :: spliced seq (nth_pos tup j + 1) (drop (S j) tup) (drop (S j) mm_bases)
  = spliced seq 0 tup mm_bases.
Proof.
  induction j as [|j IH]; intros Hj.
  - transitivity (spliced seq 0 (drop 0 tup) (drop 0 mm_bases));
      [|by rewrite !drop_0].
    rewrite (spliced_drop seq 0 tup mm_bases 0 (nth_pos tup 0) (nth_base mm_bases 0))
      by (by apply tup_lookup || by apply mm_bases_lookup).
    simpl. by rewrite slice_0.
  - rewrite <-IH by lia.
    rewrite (spliced_drop seq _ tup mm_bases (S j) (nth_pos tup (S j)) (nth_base mm_bases (S j)))
      by (by apply tup_lookup || by apply mm_bases_lookup).
    simpl. by rewrite <-app_assoc.
Qed.

Lemma get_mismatch_newseq_spliced :
  (0 < length tup)%nat →
  ascending (len seq) 0 tup →
  get_mismatch_newseq seq tup mm_bases = Ok (spliced seq 0 tup mm_bases).
Proof.
  intros Hpos Hasc. unfold get_mismatch_newseq.
  set (k := length tup) in *.
  assert (index tup 0 = Ok (nth_pos tup 0)) as ->.
  { apply index_Ok; [lia|]. apply tup_lookup. lia. }
  rewrite bind_Ok.
  assert (slice_to mm_bases (-1) = take (k - 1) mm_bases) as ->.
  { unfold slice_to, adjust, len. simpl. f_equal. lia. }
  rewrite mismatch_loop_prefix, bind_Ok by lia.
  destruct (index_neg1 mm_bases (nth_base mm_bases (k - 1))) as [-> _].
  { rewrite same_length. apply mm_bases_lookup. lia. }
  destruct (index_neg1 tup (nth_pos tup (k - 1))) as [-> _].
  { apply tup_lookup. lia. }
  rewrite !bind_Ok.
  assert (spliced_prefix seq tup mm_bases (k - 1)
            ++ nth_base mm_bases (k - 1) :: slice_from seq (nth_pos tup (k - 1) + 1)
          = spliced seq 0 tup mm_bases) as ->.
  { rewrite <-(spliced_prefix_rest (k - 1)) by lia.
    replace (S (k - 1)) with k by lia.
    rewrite (drop_ge tup), (drop_ge mm_bases) by lia. done. }
  rewrite assert_true_bind; [done|].
  apply Z.eqb_eq. rewrite len_spliced; [lia | | done].
  pose proof (len_nonneg seq). lia.
Qed.
End loop.
End spliced.

Lemma ascending_bounds (n prev : Z) (tup : list Z) :
  ascending n prev tup → Forall (λ t, prev ≤ t < n) tup.
Proof.
  revert prev. induction tup as [|t tup IH]; intros prev; simpl; [done|].
  intros [Ht Hasc]. constructor; [done|].
  eapply Forall_impl; [by apply IH|]. simpl. lia.
Qed.

Lemma index_char_at (seq : str) (i : Z) :
  0 ≤ i < len seq → index seq i = Ok (char_at seq i).
Proof.
  intros Hi. unfold char_at, len in *.
  destruct (lookup_lt_is_Some_2 seq (Z.to_nat i)) as [c Hc]; [lia|].
  rewrite Hc. by apply index_Ok; [lia|].
Qed.

Lemma elem_of_str_remove (l : str) (c x : ascii) :
  x ∈ str_remove l c ↔ x ∈ l ∧ x ≠ c.
Proof. unfold str_remove. rewrite list_elem_of_filter. tauto. Qed.

(** What [get_mismatch_seqs] returns: the strings spliced from an
    ascending choice of positions and a base other than the original one
    at each of them. *)
Lemma get_mismatch_seqs_elements (seq : str) (num_mm : Z) :
  1 ≤ num_mm →
  ∃ S, get_mismatch_seqs seq num_mm = Ok S
       ∧ ∀ x, x ∈ S ↔
              ∃ tup mm_bases,
                tup ∈ combinations_nat (range 0 (len seq)) (Z.to_nat num_mm)
                ∧ mismatch_choices seq tup mm_bases
                ∧ x = spliced seq 0 tup mm_bases.
Proof.
  intros Hnum. unfold get_mismatch_seqs, combinations.
  destruct (Z.ltb_spec num_mm 0); [lia|]. rewrite bind_Ok.
  set (choices := λ tup : list Z,
                    (λ i, str_remove bases (char_at seq i)) <$> tup).
  destruct (for_union
              (λ tup, list_to_set (spliced seq 0 tup <$> product (choices tup)))
              (combinations_nat (range 0 (len seq)) (Z.to_nat num_mm)) ∅
              (λ outset tup,
                 all_mm_bases ← comprehension
                   (λ i, c ← index seq i; Ok (str_remove bases c)) tup;
                 for_ (product all_mm_bases) outset (λ outset mm_bases,
                   newseq ← get_mismatch_newseq seq tup mm_bases;
                   Ok ({[ newseq ]} ∪ outset))))
    as (S & HS & Hin).
  { intros outset tup [Hlen Hasc]%combinations_nat_range.
    rewrite (comprehension_total _ (λ i, str_remove bases (char_at seq i))).
    - rewrite bind_Ok.
      rewrite (for_add (get_mismatch_newseq seq tup)).
      rewrite (comprehension_total _ (spliced seq 0 tup)); [done|].
      intros mm Hmm%elem_of_product. apply get_mismatch_newseq_spliced.
      + apply Forall2_length in Hmm. by rewrite length_fmap in Hmm.
      + lia.
      + done.
    - intros i Hi. apply ascending_bounds in Hasc.
      rewrite Forall_forall in Hasc. by rewrite index_char_at by by apply Hasc. }
  exists S. split; [done|]. intros x. rewrite Hin, elem_of_empty. split.
  - intros [[]|(tup & Htup & Hx)]. apply elem_of_list_to_set in Hx.
    apply list_elem_of_fmap in Hx as (mm & -> & Hmm%elem_of_product).
    exists tup, mm. split; [done|]. split; [|done].
    unfold mismatch_choices, choices in *. rewrite Forall2_fmap_r in Hmm.
    eapply Forall2_impl; [done|]. intros c t. simpl.
    by rewrite elem_of_str_remove.
  - intros (tup & mm & Htup & Hmm & ->). right. exists tup. split; [done|].
    apply elem_of_list_to_set, list_elem_of_fmap. exists mm. split; [done|].
    apply elem_of_product. unfold mismatch_choices, choices in *.
    rewrite Forall2_fmap_r. eapply Forall2_impl; [done|]. intros c t. simpl.
    by rewrite elem_of_str_remove.
Qed.

(** C10: for [1 <= n <= len(seq)], [get_mismatch_seqs seq n] returns a
    set, and each of its elements is a sequence over the alphabet of the
    length of [seq] that differs from [seq] in exactly [n] positions:
    it is [seq] with [n] distinct positions, taken in ascending order,
    each carrying a base other than the original one. *)
Theorem mismatches_differ_in_exactly_n_positions (seq : str) (num_mm : Z) :
  is_dna seq →
  1 ≤ num_mm ≤ len seq →
  ∃ S, get_mismatch_seqs seq num_mm = Ok S
       ∧ ∀ x, x ∈ S →
              len x = len seq
              ∧ is_dna x
              ∧ simple_hamming_distance x seq = num_mm
              ∧ ∃ tup mm_bases,
                  len tup = num_mm
                  ∧ ascending (len seq) 0 tup
                  ∧ mismatch_choices seq tup mm_bases
                  ∧ x = spliced seq 0 tup mm_bases.
Proof.
  intros Hdna Hnum.
  destruct (get_mismatch_seqs_elements seq num_mm) as (S & HS & Hin); [lia|].
  exists S. split; [done|].
  intros x (tup & mm & [Hlen Hasc]%combinations_nat_range & Hmm & ->)%Hin.
  pose proof (len_nonneg seq).
  split; [|split; [|split]].
  - rewrite len_spliced; [lia | lia | done].
  - apply is_dna_spliced; [done|].
    unfold mismatch_choices in Hmm. apply Forall2_Forall_l with (Q := λ c, c ∈ bases) in Hmm; [done|].
    apply Forall_true. tauto.
  - pose proof (hamming_spliced seq 0 tup mm) as Hham.
    rewrite slice_from_drop, drop_0 in Hham by lia.
    rewrite Hham; [unfold len; lia | lia | done |].
    unfold mismatch_choices in Hmm. eapply Forall2_impl; [done|]. tauto.
  - exists tup, mm. unfold len. split; [lia|]. done.
Qed.

Lemma mismatches_differ_in_exactly_n_positions_witness :
  ∃ S, get_mismatch_seqs (lit "ACGT") 2 = Ok S
       ∧ ∀ x, x ∈ S →
              len x = len (lit "ACGT")
              ∧ is_dna x
              ∧ simple_hamming_distance x (lit "ACGT") = 2
              ∧ ∃ tup mm_bases,
                  len tup = 2
                  ∧ ascending (len (lit "ACGT")) 0 tup
                  ∧ mismatch_choices (lit "ACGT") tup mm_bases
                  ∧ x = spliced (lit "ACGT") 0 tup mm_bases.
Proof.
  apply (mismatches_differ_in_exactly_n_positions (lit "ACGT") 2).
  - dna_literal.
  - vm_compute. split; discriminate.
Defined.

(** ** Mismatches in a region *)

Lemma lookup_replaced_span (seq mid : str) (start end_ : Z) (i : nat) :
  0 ≤ start ≤ end_ → end_ ≤ len seq → len mid = end_ - start →
  Z.of_nat i < start ∨ end_ ≤ Z.of_nat i →
  (slice_to seq start ++ mid ++ slice_from seq end_) !! i = seq !! i.
Proof.
  intros H1 H2 Hmid Hi. rewrite slice_to_take, slice_from_drop by lia.
  unfold len in *.
  assert (length (take (Z.to_nat start) seq) = Z.to_nat start) as Hl
    by (rewrite length_take; lia).
  destruct Hi as [Hi|Hi].
  - rewrite lookup_app_l by lia. apply lookup_take_lt. lia.
  - rewrite lookup_app_r, lookup_app_r, lookup_drop by lia.
    f_equal. lia.
Qed.

Lemma index_ext {A} (l1 l2 : list A) (i : Z) :
  len l1 = len l2 →
  (∀ j : nat, Z.of_nat j = (if i <? 0 then len l1 + i else i) →
              l1 !! j = l2 !! j) →
  index l1 i = index l2 i.
Proof.
  intros Hlen Hlookup. unfold index. rewrite <-Hlen.
  destruct (_ || _) eqn:E; [done|].
  apply orb_false_iff in E as [E _]. apply Z.ltb_ge in E.
  by rewrite (Hlookup (Z.to_nat (if i <? 0 then len l1 + i else i)))
    by (rewrite Z2Nat.id; lia).
Qed.

(** C6: [get_mismatches_in_region seq start end n] is the image of
    [get_mismatch_seqs (seq[start:end]) n] under
    [m ↦ seq[:start] ++ m ++ seq[end:]], and each of its elements has the
    length of [seq] and agrees with [seq] at every index outside
    [start, end). *)
Theorem mismatches_in_region_frame (seq : str) (start end_ num_mm : Z) :
  is_dna seq →
  0 ≤ start < end_ →
  end_ ≤ len seq →
  1 ≤ num_mm ≤ end_ - start →
  ∃ M S,
    get_mismatch_seqs (slice seq start end_) num_mm = Ok M
    ∧ get_mismatches_in_region seq start end_ num_mm = Ok S
    ∧ (∀ x, x ∈ S ↔
            ∃ m, m ∈ M ∧ x = slice_to seq start ++ m ++ slice_from seq end_)
    ∧ ∀ x, x ∈ S →
           len x = len seq
           ∧ ∀ i, 0 ≤ i < start ∨ end_ ≤ i < len seq →
                  index x i = index seq i.
Proof.
  intros Hdna Hse Hend Hnum.
  destruct (get_mismatch_seqs_elements (slice seq start end_) num_mm)
    as (M & HM & HinM); [lia|].
  assert (len (slice seq start end_) = end_ - start) as Hregion
    by (apply len_slice; lia).
  assert (∀ m, m ∈ M → len m = end_ - start) as HlenM.
  { intros m (tup & mm & [_ Hasc]%combinations_nat_range & _ & ->)%HinM.
    rewrite len_spliced; [lia | lia | done]. }
  unfold get_mismatches_in_region. rewrite HM, bind_Ok.
  eexists M, _. split; [done|]. split; [done|].
  assert (∀ x,
            x ∈@{strset}
              list_to_set
                ((λ mm_seq, slice_to seq start ++ mm_seq ++ slice_from seq end_)
                   <$> elements M)
            ↔ ∃ m, m ∈ M
                   ∧ x = slice_to seq start ++ m ++ slice_from seq end_)
    as Hchar.
  { intros x. rewrite elem_of_list_to_set, list_elem_of_fmap.
    split; intros (m & ? & ?); exists m; rewrite elem_of_elements in *; done. }
  split; [done|].
  intros x (m & Hm%HlenM & ->)%Hchar.
  assert (len (slice_to seq start ++ m ++ slice_from seq end_) = len seq)
    as Hlen.
  { rewrite !len_app, len_slice_to, len_slice_from by lia. lia. }
  split; [done|].
  intros i Hi. apply index_ext; [done|]. intros j Hj.
  destruct (Z.ltb_spec i 0); [lia|].
  apply lookup_replaced_span; lia.
Qed.

Lemma mismatches_in_region_frame_witness :
  ∃ M S,
    get_mismatch_seqs (slice (lit "ACGTACGT") 2 5) 1 = Ok M
    ∧ get_mismatches_in_region (lit "ACGTACGT") 2 5 1 = Ok S
    ∧ (∀ x, x ∈ S ↔
            ∃ m, m ∈ M
                 ∧ x = slice_to (lit "ACGTACGT") 2 ++ m
                         ++ slice_from (lit "ACGTACGT") 5)
    ∧ ∀ x, x ∈ S →
           len x = len (lit "ACGTACGT")
           ∧ ∀ i, 0 ≤ i < 2 ∨ 5 ≤ i < len (lit "ACGTACGT") →
                  index x i = index (lit "ACGTACGT") i.
Proof.
  apply (mismatches_in_region_frame (lit "ACGTACGT") 2 5 1).
  - dna_literal.
  - lia.
  - vm_compute. discriminate.
  - lia.
Defined.

(** ** Complement bundles *)

Section equal_length_slices.
Context {A : Type}.
Implicit Types l : list A.

Lemma len_slice_to_eq l1 l2 hi :
  len l1 = len l2 → len (slice_to l1 hi) = len (slice_to l2 hi).
Proof.
  intros H. unfold slice_to. rewrite H. unfold len in *.
  rewrite !length_take. lia.
Qed.

Lemma len_slice_eq l1 l2 lo hi :
  len l1 = len l2 → len (slice l1 lo hi) = len (slice l2 lo hi).
Proof.
  intros H. unfold slice. rewrite H. unfold len in *.
  rewrite !length_take, !length_drop. lia.
Qed.

Lemma len_slice_le l lo hi : 0 ≤ lo ≤ hi → len (slice l lo hi) ≤ hi - lo.
Proof.
  intros H. rewrite slice_take_drop by lia. unfold len.
  rewrite length_take. lia.
Qed.
End equal_length_slices.

(** Complementing one span keeps the length and loses at most the
    agreements inside the span. *)
Lemma complement_span_agreements (seq cur : str) (start end_ : Z) :
  is_dna cur → len cur = len seq → 0 ≤ start ≤ end_ →
  ∃ nxt, complement_span cur start end_ = Ok nxt
         ∧ is_dna nxt ∧ len nxt = len seq
         ∧ agreements cur seq ≤ agreements nxt seq + (end_ - start).
Proof.
  intros Hdna Hlen Hse. rewrite complement_span_dna by done.
  eexists. split; [done|].
  pose proof (slice_split cur start end_ Hse) as Hcur.
  pose proof (slice_split seq start end_ Hse) as Hseq.
  split; [|split].
  - rewrite !is_dna_app.
    auto using is_dna_slice_to, is_dna_slice_from, is_dna_compl, is_dna_slice.
  - rewrite <-Hlen.
    transitivity (len (slice_to cur start ++ slice cur start end_
                         ++ slice_from cur end_)); [|by rewrite <-Hcur].
    rewrite !len_app. unfold len. by rewrite length_fmap.
  - assert (length (slice_to cur start) = length (slice_to seq start)) as H1
      by (apply Nat2Z.inj, len_slice_to_eq, Hlen).
    assert (length (slice cur start end_) = length (slice seq start end_)) as H2
      by (apply Nat2Z.inj, len_slice_eq, Hlen).
    assert (agreements cur seq
            = agreements (slice_to cur start ++ slice cur start end_
                            ++ slice_from cur end_)
                         (slice_to seq start ++ slice seq start end_
                            ++ slice_from seq end_)) as ->
      by (by rewrite <-Hcur, <-Hseq).
    assert (agreements (slice_to cur start ++ (compl <$> slice cur start end_)
                          ++ slice_from cur end_) seq
            = agreements (slice_to cur start ++ (compl <$> slice cur start end_)
                            ++ slice_from cur end_)
                         (slice_to seq start ++ slice seq start end_
                            ++ slice_from seq end_)) as ->
      by (by rewrite <-Hseq).
    rewrite !agreements_app by (by rewrite ?length_fmap).
    pose proof (agreements_bounds (slice cur start end_) (slice seq start end_)).
    pose proof (agreements_bounds (compl <$> slice cur start end_)
                                  (slice seq start end_)).
    pose proof (len_slice_le cur start end_ Hse). lia.
Qed.

Lemma complement_bundles_agreements (seq cur : str) (sel : list (Z * Z)) :
  is_dna cur → len cur = len seq →
  Forall (λ '(start, end_), 0 ≤ start ≤ end_) sel →
  ∃ newseq, for_ sel cur (λ newseq '(start, end_),
                            complement_span newseq start end_) = Ok newseq
            ∧ len newseq = len seq
            ∧ agreements cur seq ≤ agreements newseq seq + span_lengths sel.
Proof.
  intros Hdna Hlen Hsel. revert cur Hdna Hlen.
  induction Hsel as [|[start end_] sel Hse Hsel IH]; intros cur Hdna Hlen.
  - exists cur. split; [done|]. split; [done|]. unfold span_lengths, sum.
    simpl. lia.
  - simpl.
    destruct (complement_span_agreements seq cur start end_)
      as (nxt & -> & Hdna' & Hlen' & Hagree); [done..|].
    rewrite bind_Ok.
    destruct (IH nxt Hdna' Hlen') as (newseq & -> & ? & ?).
    exists newseq. split; [done|]. split; [done|].
    unfold span_lengths in *. rewrite fmap_cons, sum_cons. lia.
Qed.

Lemma foldl_snoc_fmap {A B} (f : A → B) (l : list A) (acc : list B) :
  foldl (λ acc x, acc ++ [f x]) acc l = acc ++ (f <$> l).
Proof.
  revert acc. induction l as [|x l IH]; intros acc; simpl.
  - by rewrite app_nil_r.
  - by rewrite IH, <-app_assoc.
Qed.

Lemma make_bundles_spans (seq : str) (bundle_len : Z) :
  0 < bundle_len →
  ∃ bundles, make_bundles seq bundle_len = Ok bundles
             ∧ Forall (λ '(start, end_), 0 ≤ start ≤ end_) bundles.
Proof.
  intros Hpos. unfold make_bundles. pose proof (len_nonneg seq).
  destruct (Z.ltb_spec (len seq) (bundle_len * 2)).
  - eexists. split; [done|]. repeat constructor; lia.
  - unfold range_step. destruct (Z.eqb_spec bundle_len 0); [lia|].
    rewrite bind_Ok.
    rewrite (foldl_snoc_fmap (λ start, (start, start + bundle_len))).
    eexists. split; [done|]. simpl. apply Forall_app. split.
    + rewrite Forall_fmap, Forall_fmap. apply Forall_forall.
      intros k _. simpl. nia.
    + pose proof (Z.mod_pos_bound (len seq) bundle_len Hpos).
      repeat constructor; lia.
Qed.

Lemma combinations_nat_Forall {A} (P : A → Prop) (l sel : list A) (r : nat) :
  Forall P l → sel ∈ combinations_nat l r → Forall P sel.
Proof.
  intros Hl. revert r sel.
  induction Hl as [|x l Hx Hl IH]; intros [|r] sel; simpl.
  - intros ->%list_elem_of_singleton. constructor.
  - intros []%elem_of_nil.
  - intros ->%list_elem_of_singleton. constructor.
  - rewrite elem_of_app, list_elem_of_fmap.
    intros [(sel' & -> & Hsel')|Hsel]; [|by eapply IH].
    constructor; [done|]. by eapply IH.
Qed.

(** C5: on a sequence over the alphabet
    [get_complementary_bundle_sets] returns a set, and each of its
    elements has the length of [seq] and agrees with [seq] on at least
    [ceil(len(seq)/3)] positions. *)
Theorem complement_bundles_keep_a_third (seq : str) :
  is_dna seq →
  ∃ S, get_complementary_bundle_sets seq = Ok S
       ∧ ∀ x, x ∈ S →
              len x = len seq
              ∧ (len seq + 2) / 3 ≤ agreements x seq.
Proof.
  intros Hdna. unfold get_complementary_bundle_sets.
  change (range_step 3 11 2) with (Ok (A:=list Z) [3; 5; 7; 9]).
  rewrite bind_Ok.
  set (I := λ outset : strset,
              ∀ x, x ∈ outset →
                   len x = len seq ∧ (len seq + 2) / 3 ≤ agreements x seq).
  apply (for_invariant I); [intros x []%elem_of_empty|].
  intros outset1 bundle_len Hbl Hout1.
  destruct (make_bundles_spans seq bundle_len) as (bundles & -> & Hbundles).
  { set_unfold in Hbl. lia. }
  rewrite bind_Ok. apply (for_invariant I); [done|].
  intros outset2 num_bundles [Hnb _]%elem_of_range Hout2.
  unfold combinations. destruct (Z.ltb_spec num_bundles 0); [lia|].
  rewrite bind_Ok. apply (for_invariant I); [done|].
  intros outset3 sel Hsel Hout3.
  destruct (too_little_left seq sel) eqn:Hleft; [by exists outset3|].
  destruct (complement_bundles_agreements seq seq sel)
    as (newseq & Hnew & Hlen & Hagree); [done | done | |].
  { by eapply combinations_nat_Forall. }
  unfold complement_bundles. rewrite Hnew, bind_Ok.
  rewrite assert_true_bind by (by apply Z.eqb_eq).
  eexists. split; [done|].
  intros x [->%elem_of_singleton|Hx]%elem_of_union; [|by apply Hout3].
  split; [done|].
  unfold too_little_left in Hleft. apply Z.leb_gt in Hleft.
  unfold span_lengths in Hagree. rewrite agreements_same in Hagree.
  pose proof (Z.div_mod (len seq + 2) 3 ltac:(lia)).
  pose proof (Z.mod_pos_bound (len seq + 2) 3 ltac:(lia)).
  lia.
Qed.

Lemma complement_bundles_keep_a_third_witness :
  ∃ S, get_complementary_bundle_sets (lit "ACGTACGTACGTA") = Ok S
       ∧ ∀ x, x ∈ S →
              len x = len (lit "ACGTACGTACGTA")
              ∧ (len (lit "ACGTACGTACGTA") + 2) / 3
                ≤ agreements x (lit "ACGTACGTACGTA").
Proof.
  apply (complement_bundles_keep_a_third (lit "ACGTACGTACGTA")). dna_literal.
Defined.

(** ** Failing fast on violated preconditions *)

(** C8: [get_randomized_region_seqs] called with [start >= end], and
    [get_randomized_pam_seqs] called with fewer randomized bases than PAM
    bases, raise the error of their leading [assert] statement and return
    no result set, whatever the sequence and the chosen end are. *)
Theorem precondition_violations_fail_fast
    (seq : str) (start end_ num_pam_bases num_randomized_bases : Z)
    (pam_end : str) :
  end_ ≤ start →
  num_randomized_bases < num_pam_bases →
  get_randomized_region_seqs seq start end_ = Raise AssertionError
  ∧ get_randomized_pam_seqs seq num_pam_bases num_randomized_bases pam_end
    = Raise AssertionError.
Proof.
  intros Hregion Hpam. split.
  - unfold get_randomized_region_seqs.
    apply assert_false_bind, Z.ltb_ge, Hregion.
  - unfold get_randomized_pam_seqs.
    apply assert_false_bind, Z.leb_gt, Hpam.
Qed.

Lemma precondition_violations_fail_fast_witness :
  get_randomized_region_seqs (lit "ACGT") 2 2 = Raise AssertionError
  ∧ get_randomized_pam_seqs (lit "ACGT") 3 2 (lit "5p") = Raise AssertionError.
Proof.
  apply (precondition_violations_fail_fast (lit "ACGT") 2 2 3 2 (lit "5p"));
    lia.
Defined.

(** ** Randomized PAM *)

(** C2 (as stated) fails: with one PAM base and two randomized bases the
    call on "ACG" returns "AACG", which is one base longer than the
    input and is not a two-base string followed by [seq[2:]]. *)
Lemma randomized_pam_outputs_longer_than_input :
  1 ≤ 1 ≤ 2 ∧ 2 ≤ len (lit "ACG")
  ∧ ∃ S, get_randomized_pam_seqs (lit "ACG") 1 2 (lit "5p") = Ok S
         ∧ lit "AACG" ∈ S
         ∧ len (lit "AACG") ≠ len (lit "ACG")
         ∧ ¬ ∃ r, len r = 2 ∧ lit "AACG" = r ++ slice_from (lit "ACG") 2.
Proof.
  split; [lia|]. split; [vm_compute; discriminate|].
  eexists. split; [reflexivity|]. split; [|split].
  - apply elem_of_list_to_set, list_elem_of_fmap. exists (lit "AA").
    split; [reflexivity|].
    apply elem_of_product_replicate. split; [reflexivity|].
    repeat constructor.
  - vm_compute. discriminate.
  - intros (r & Hr & Heq). apply (f_equal length) in Heq.
    rewrite length_app in Heq. unfold len in Hr.
    change (length (slice_from (lit "ACG") 2)) with 1%nat in Heq.
    change (length (lit "AACG")) with 4%nat in Heq. lia.
Qed.

Lemma slice_to_negative {A} (l : list A) (k : Z) :
  1 ≤ k ≤ len l → slice_to l (- k) = slice_to l (len l - k).
Proof.
  intros H. unfold slice_to, adjust.
  destruct (Z.ltb_spec (- k) 0); [|lia].
  destruct (Z.ltb_spec (len l - k) 0); [lia|].
  f_equal. lia.
Qed.

Lemma get_randomized_pam_seqs_unfold seq pam rand pam_end all :
  pam ≤ rand →
  product_repeat bases rand = Ok all →
  get_randomized_pam_seqs seq pam rand pam_end
  = if decide (pam_end = lit "5p") then
      Ok (list_to_set ((λ r, r ++ slice_from seq pam) <$> all))
    else
      assert (bool_decide (pam_end = lit "3p"));;
      Ok (list_to_set ((λ r, slice_to seq (- pam) ++ r) <$> all)).
Proof.
  intros Hle Hall. unfold get_randomized_pam_seqs.
  rewrite assert_true_bind by (apply Z.leb_le; lia).
  by rewrite Hall, bind_Ok.
Qed.

(** C2 (amended): the randomized string replaces the [pamLen] bases of
    the PAM, not [randLen] bases: at the 5' end the result is
    [{ r ++ seq[pamLen:] }] and at the 3' end
    [{ seq[:len(seq)-pamLen] ++ r }], for [r] ranging over the strings of
    length [randLen]; every output has length
    [len(seq) + randLen - pamLen]. *)
Theorem randomized_pam_replaces_pam_bases
    (seq : str) (num_pam_bases num_randomized_bases : Z) :
  1 ≤ num_pam_bases ≤ num_randomized_bases →
  num_randomized_bases ≤ len seq →
  (∃ S5, get_randomized_pam_seqs seq num_pam_bases num_randomized_bases
           (lit "5p") = Ok S5
         ∧ ∀ x, x ∈ S5 ↔
                ∃ r, is_dna r ∧ len r = num_randomized_bases
                     ∧ x = r ++ slice_from seq num_pam_bases)
  ∧ (∃ S3, get_randomized_pam_seqs seq num_pam_bases num_randomized_bases
             (lit "3p") = Ok S3
           ∧ ∀ x, x ∈ S3 ↔
                  ∃ r, is_dna r ∧ len r = num_randomized_bases
                       ∧ x = slice_to seq (len seq - num_pam_bases) ++ r)
  ∧ ∀ pam_end S x,
      get_randomized_pam_seqs seq num_pam_bases num_randomized_bases pam_end
      = Ok S →
      x ∈ S → len x = len seq + num_randomized_bases - num_pam_bases.
Proof.
  intros Hpam Hrand.
  destruct (product_repeat_bases num_randomized_bases) as (all & Hall & Hin);
    [lia|].
  split; [|split].
  - eexists. split; [by erewrite get_randomized_pam_seqs_unfold by (lia || done)|].
    intros x. rewrite elem_of_list_to_set, list_elem_of_fmap.
    split; intros (r & ? & ?); exists r; rewrite Hin in *; naive_solver.
  - eexists. split; [by erewrite get_randomized_pam_seqs_unfold by (lia || done)|].
    intros x.
    rewrite elem_of_list_to_set, list_elem_of_fmap, <-slice_to_negative by lia.
    split; intros (r & ? & ?); exists r; rewrite Hin in *; naive_solver.
  - intros pam_end S x.
    erewrite get_randomized_pam_seqs_unfold by (lia || done).
    destruct (decide (pam_end = lit "5p")).
    + intros [= <-]. rewrite elem_of_list_to_set, list_elem_of_fmap.
      intros (r & -> & [_ Hr]%Hin). rewrite len_app, len_slice_from; lia.
    + destruct (bool_decide (pam_end = lit "3p")); [|discriminate].
      rewrite assert_true_bind by done. intros [= <-].
      rewrite elem_of_list_to_set, list_elem_of_fmap.
      intros (r & -> & [_ Hr]%Hin).
      rewrite len_app, slice_to_negative, len_slice_to; lia.
Qed.

Lemma randomized_pam_replaces_pam_bases_witness :
  (∃ S5, get_randomized_pam_seqs (lit "ACG") 1 2 (lit "5p") = Ok S5
         ∧ ∀ x, x ∈ S5 ↔
                ∃ r, is_dna r ∧ len r = 2
                     ∧ x = r ++ slice_from (lit "ACG") 1)
  ∧ (∃ S3, get_randomized_pam_seqs (lit "ACG") 1 2 (lit "3p") = Ok S3
           ∧ ∀ x, x ∈ S3 ↔
                  ∃ r, is_dna r ∧ len r = 2
                       ∧ x = slice_to (lit "ACG") (len (lit "ACG") - 1) ++ r)
  ∧ ∀ pam_end S x,
      get_randomized_pam_seqs (lit "ACG") 1 2 pam_end = Ok S →
      x ∈ S → len x = len (lit "ACG") + 2 - 1.
Proof.
  apply (randomized_pam_replaces_pam_bases (lit "ACG") 1 2).
  - lia.
  - vm_compute. discriminate.
Defined.

(** ** Contiguous insertions *)

(** C4 (as stated) fails: the insertion points start at 1, so a block is
    never put in front of the sequence; "CA" is not among the
    one-base insertions into "A". *)
Lemma contiguous_insertion_never_at_front :
  1 ≤ 1
  ∧ ∃ S, get_contiguous_insertion_seqs (lit "A") 1 = Ok S
         ∧ lit "C" ++ lit "A" ∉ S.
Proof.
  split; [lia|]. eexists. split; [vm_compute; reflexivity|].
  apply (proj1 (bool_decide_eq_false _)). vm_compute. reflexivity.
Qed.

Lemma elem_of_foldl_update {A} (g : A → list str) (l : list A)
    (acc : strset) (x : str) :
  x ∈ foldl (λ (outset : strset) i, list_to_set (g i) ∪ outset) acc l
  ↔ x ∈ acc ∨ ∃ i, i ∈ l ∧ x ∈ g i.
Proof.
  revert acc. induction l as [|a l IH]; intros acc; simpl.
  - split; [by left|]. intros [?|(i & []%elem_of_nil & _)]. done.
  - rewrite IH, elem_of_union, elem_of_list_to_set. split.
    + intros [[?|?]|(i & ? & ?)]; [right; exists a|by left|right; exists i];
        (split; [|done]); by constructor.
    + intros [?|(i & [->|?]%elem_of_cons & ?)]; [left; by right|left; by left|].
      right. by exists i.
Qed.

(** C4 (amended): the insertion points range over [1, len(seq)], so the
    result is [{ seq[:i] ++ block ++ seq[i:] }] for those [i] and every
    block of length [insLen] over the alphabet, and all outputs have
    length [len(seq) + insLen]. *)
Theorem contiguous_insertion_points_from_one (seq : str) (len_ins : Z) :
  1 ≤ len_ins →
  ∃ S, get_contiguous_insertion_seqs seq len_ins = Ok S
       ∧ (∀ x, x ∈ S ↔
               ∃ i block, 1 ≤ i ≤ len seq
                          ∧ is_dna block ∧ len block = len_ins
                          ∧ x = slice_to seq i ++ block ++ slice_from seq i)
       ∧ ∀ x, x ∈ S → len x = len seq + len_ins.
Proof.
  intros Hins.
  destruct (product_repeat_bases len_ins) as (all & Hall & Hin); [lia|].
  unfold get_contiguous_insertion_seqs. rewrite Hall, bind_Ok.
  set (outset := foldl _ _ _).
  assert (∀ x, x ∈ outset ↔
               ∃ i block, 1 ≤ i ≤ len seq
                          ∧ is_dna block ∧ len block = len_ins
                          ∧ x = slice_to seq i ++ block ++ slice_from seq i)
    as Hchar.
  { intros x. unfold outset.
    rewrite (elem_of_foldl_update
               (λ i, (λ insertion,
                        slice_to seq i ++ insertion ++ slice_from seq i)
                       <$> all)).
    rewrite elem_of_empty. split.
    - intros [[]|(i & Hi%elem_of_range & (b & -> & Hb%Hin)%list_elem_of_fmap)].
      exists i, b. split; [lia|]. tauto.
    - intros (i & b & Hi & Hb1 & Hb2 & ->). right. exists i.
      split; [apply elem_of_range; lia|].
      apply list_elem_of_fmap. exists b. split; [done|]. by apply Hin. }
  assert (∀ x, x ∈ outset → len x = len seq + len_ins) as Hlen.
  { intros x (i & b & Hi & _ & Hb & ->)%Hchar.
    rewrite !len_app, len_slice_to, len_slice_from; lia. }
  exists outset. split; [|done].
  rewrite assert_true_bind; [done|].
  apply forallb_forall. intros x Hx%list_elem_of_In%elem_of_elements.
  apply Z.eqb_eq. by apply Hlen.
Qed.

Lemma contiguous_insertion_points_from_one_witness :
  ∃ S, get_contiguous_insertion_seqs (lit "AC") 2 = Ok S
       ∧ (∀ x, x ∈ S ↔
               ∃ i block, 1 ≤ i ≤ len (lit "AC")
                          ∧ is_dna block ∧ len block = 2
                          ∧ x = slice_to (lit "AC") i ++ block
                                  ++ slice_from (lit "AC") i)
       ∧ ∀ x, x ∈ S → len x = len (lit "AC") + 2.
Proof. apply (contiguous_insertion_points_from_one (lit "AC") 2). lia. Defined.

(** ** An edit count of zero *)

(** C1 (what the code does): with an edit count of zero
    [itertools.combinations] yields the empty tuple once, and each of the
    three enumerators then evaluates [tup[0]] on it, so the call ends in
    an [IndexError] instead of returning the singleton set. *)
Theorem zero_edits_raise_IndexError (seq : str) :
  get_deletion_seqs seq 0 = Raise IndexError
  ∧ get_insertion_seqs seq 0 = Raise IndexError
  ∧ get_mismatch_seqs seq 0 = Raise IndexError.
Proof.
  unfold get_deletion_seqs, get_insertion_seqs, get_mismatch_seqs.
  unfold combinations. simpl.
  split; [|split].
  - by destruct (range 0 (len seq)).
  - by destruct (range 1 (len seq + 1)).
  - by destruct (range 0 (len seq)).
Qed.

(** ** Single-base insertions into "AC" *)

(** C3 (as stated) fails: the call does not return the eight strings of
    the claim; "CAC", an insertion before index 0, is not produced. *)
Lemma insertions_AC_1_not_eight_strings :
  get_insertion_seqs (lit "AC") 1
  ≠ Ok (list_to_set [lit "AAC"; lit "CAC"; lit "GAC"; lit "TAC";
                     lit "ACA"; lit "ACC"; lit "ACG"; lit "ACT"]).
Proof.
  intros H.
  assert (get_insertion_seqs (lit "AC") 1
          = Ok (list_to_set [lit "AAC"; lit "ACC"; lit "AGC"; lit "ATC";
                             lit "ACA"; lit "ACG"; lit "ACT"])) as H'
    by (vm_compute; reflexivity).
  rewrite H' in H.
  assert (lit "CAC" ∈@{strset}
            list_to_set [lit "AAC"; lit "ACC"; lit "AGC"; lit "ATC";
                         lit "ACA"; lit "ACG"; lit "ACT"]) as Hin.
  { replace (list_to_set [lit "AAC"; lit "ACC"; lit "AGC"; lit "ATC";
                          lit "ACA"; lit "ACG"; lit "ACT"])
      with (list_to_set (C:=strset)
              [lit "AAC"; lit "CAC"; lit "GAC"; lit "TAC";
               lit "ACA"; lit "ACC"; lit "ACG"; lit "ACT"])
      by congruence.
    set_solver. }
  revert Hin. apply (proj1 (bool_decide_eq_false _)). vm_compute. reflexivity.
Qed.

(** C3 (amended): the slots are 1 and 2 only, and the call returns exactly
    seven strings: a base inserted after "A" or after "AC", where "ACC"
    arises from both slots. *)
Theorem insertions_AC_1 :
  get_insertion_seqs (lit "AC") 1
  = Ok (list_to_set [lit "AAC"; lit "ACC"; lit "AGC"; lit "ATC";
                     lit "ACA"; lit "ACG"; lit "ACT"])
  ∧ size (list_to_set (C:=strset)
            [lit "AAC"; lit "ACC"; lit "AGC"; lit "ATC";
             lit "ACA"; lit "ACG"; lit "ACT"]) = 7%nat.
Proof. split; vm_compute; reflexivity. Qed.

(** ** Deletions *)

Lemma slice_from_1_cons {A} (x : A) (l : list A) : slice_from (x :: l) 1 = l.
Proof.
  rewrite slice_from_drop by lia. done.
Qed.

Lemma index_0_cons {A} (x : A) (l : list A) : index (x :: l) 0 = Ok x.
Proof. by apply index_Ok. Qed.

Lemma index_neg1_last {A} (l : list A) (x : A) :
  last l = Some x → index l (-1) = Ok x.
Proof.
  rewrite last_lookup. intros Hx. apply index_neg1.
  by replace (length l - 1)%nat with (pred (length l)) by lia.
Qed.

(** The loop of [get_deletion_seqs] over the pairs of neighbouring
    positions, followed by the tail after the last position. *)
Lemma deletion_loop (seq acc : str) (t tl : Z) (rest : list Z) :
  last (t :: rest) = Some tl →
  foldl (λ newseq '(i, j), newseq ++ slice seq (i + 1) j) acc
        (zip (t :: rest) rest)
    ++ slice_from seq (tl + 1)
  = acc ++ deleted seq (t + 1) rest.
Proof.
  revert acc t. induction rest as [|t1 rest IH]; intros acc t Hlast.
  - by simplify_eq/=.
  - rewrite last_cons_cons in Hlast. cbn [deleted].
    rewrite app_assoc, <-(IH _ _ Hlast). reflexivity.
Qed.

Lemma len_deleted (seq : str) (prev : Z) (tup : list Z) :
  0 ≤ prev ≤ len seq →
  ascending (len seq) prev tup →
  len (deleted seq prev tup) = len seq - prev - len tup.
Proof.
  revert prev. induction tup as [|t tup IH]; intros prev Hprev Hasc; simpl.
  - rewrite len_slice_from by done. unfold len at 3. simpl. lia.
  - destruct Hasc as [Ht Hasc].
    rewrite len_app, len_slice, IH, len_cons by (lia || done). lia.
Qed.

Lemma deleted_sublist (seq : str) (prev : Z) (tup : list Z) :
  0 ≤ prev →
  ascending (len seq) prev tup →
  deleted seq prev tup `sublist_of` slice_from seq prev.
Proof.
  revert prev. induction tup as [|t tup IH]; intros prev Hprev Hasc; simpl.
  - done.
  - destruct Hasc as [Ht Hasc].
    rewrite (slice_from_split seq prev t), (slice_from_cons seq t) by lia.
    apply sublist_app; [done|]. apply sublist_cons. apply IH; [lia | done].
Qed.

Lemma get_deletion_newseq_deleted (seq : str) (ndel : Z) (tup : list Z) :
  len tup = ndel →
  1 ≤ ndel →
  ascending (len seq) 0 tup →
  get_deletion_newseq seq ndel tup = Ok (deleted seq 0 tup).
Proof.
  intros Hlen Hpos Hasc. destruct tup as [|t rest]; [unfold len in Hlen; simpl in Hlen; lia|].
  unfold get_deletion_newseq. rewrite index_0_cons, bind_Ok.
  destruct (last (t :: rest)) as [tl|] eqn:Hlast;
    [|by apply last_None in Hlast].
  rewrite (index_neg1_last _ tl), bind_Ok by done.
  rewrite slice_from_1_cons, deletion_loop by done.
  assert (slice_to seq t ++ deleted seq (t + 1) rest = deleted seq 0 (t :: rest))
    as -> by (simpl; by rewrite slice_0).
  rewrite assert_true_bind; [done|].
  apply Z.eqb_eq. pose proof (len_nonneg seq).
  rewrite len_deleted by (lia || done). lia.
Qed.

Lemma get_deletion_seqs_elements (seq : str) (ndel : Z) :
  1 ≤ ndel →
  ∃ S, get_deletion_seqs seq ndel = Ok S
       ∧ ∀ x, x ∈ S ↔
              ∃ tup, tup ∈ combinations_nat (range 0 (len seq)) (Z.to_nat ndel)
                     ∧ x = deleted seq 0 tup.
Proof.
  intros Hpos. unfold get_deletion_seqs, combinations.
  destruct (Z.ltb_spec ndel 0); [lia|]. rewrite bind_Ok.
  rewrite (for_add (get_deletion_newseq seq ndel)).
  rewrite (comprehension_total _ (deleted seq 0)).
  - rewrite bind_Ok. eexists. split; [done|]. intros x.
    rewrite elem_of_union, elem_of_empty, elem_of_list_to_set,
      list_elem_of_fmap.
    split; [intros [(tup & ? & ?)|[]]|intros (tup & ? & ?); left];
      by exists tup.
  - intros tup [Hlen Hasc]%combinations_nat_range.
    apply get_deletion_newseq_deleted; [unfold len; lia | done..].
Qed.

(** Every ascending tuple of positions is enumerated. *)
Lemma combinations_nat_range_2 (a n : Z) (k : nat) (tup : list Z) :
  length tup = k → ascending n a tup →
  tup ∈ combinations_nat (range a n) k.
Proof.
  remember (Z.to_nat (n - a)) as m eqn:Hm.
  revert a k tup Hm. induction m as [|m IH]; intros a k tup Hm Hlen Hasc.
  - rewrite range_nil by lia.
    destruct tup as [|t tup]; [|simpl in Hasc; lia].
    subst k. by apply list_elem_of_singleton.
  - rewrite range_cons by lia.
    destruct tup as [|t tup]; subst k; simpl;
      [by apply list_elem_of_singleton|].
    destruct Hasc as [Ht Hasc]. apply elem_of_app.
    destruct (decide (t = a)) as [->|Hne].
    + left. apply list_elem_of_fmap. exists tup. split; [done|].
      apply IH; [lia | done..].
    + right. apply (IH (a + 1) (S (length tup)) (t :: tup)); [lia | done|].
      simpl. split; [lia | done].
Qed.

Lemma slice_empty {A} (l : list A) (i : Z) : 0 ≤ i → slice l i i = [].
Proof.
  intros Hi. rewrite slice_take_drop by lia.
  by rewrite Nat.sub_diag.
Qed.

Lemma slice_cons (seq : str) (prev t : Z) :
  0 ≤ prev < t → t ≤ len seq →
  slice seq prev t = char_at seq prev :: slice seq (prev + 1) t.
Proof.
  intros Hprev Ht. rewrite !slice_take_drop by lia.
  pose proof (slice_from_cons seq prev ltac:(lia)) as Hcons.
  rewrite !slice_from_drop in Hcons by lia. rewrite Hcons.
  by replace (Z.to_nat t - Z.to_nat prev)%nat
    with (S (Z.to_nat t - Z.to_nat (prev + 1))) by lia.
Qed.

(** A position before the first deleted one is kept. *)
Lemma deleted_skip (seq : str) (prev : Z) (tup : list Z) :
  0 ≤ prev < len seq →
  ascending (len seq) (prev + 1) tup →
  deleted seq prev tup = char_at seq prev :: deleted seq (prev + 1) tup.
Proof.
  intros Hprev Hasc. destruct tup as [|t tup]; simpl.
  - by apply slice_from_cons.
  - destruct Hasc as [Ht _]. by rewrite slice_cons by lia.
Qed.

(** Every subsequence arises from deleting an ascending tuple of
    positions. *)
Lemma sublist_deleted (seq x rest : str) (prev : Z) :
  x `sublist_of` rest →
  rest = slice_from seq prev →
  0 ≤ prev ≤ len seq →
  ∃ tup, ascending (len seq) prev tup
         ∧ len tup = len rest - len x
         ∧ deleted seq prev tup = x.
Proof.
  intros Hsub. revert prev.
  induction Hsub as [|c x rest Hsub IH|c x rest Hsub IH]; intros prev Hrest Hprev.
  - exists []. simpl. by rewrite <-Hrest.
  - assert (prev < len seq) as Hlt.
    { destruct (decide (prev < len seq)); [done|].
      rewrite slice_from_drop, drop_ge in Hrest by (unfold len in *; lia).
      done. }
    rewrite slice_from_cons in Hrest by lia. injection Hrest as -> ->.
    destruct (IH (prev + 1)) as (tup & Hasc & Hlen & Hdel); [done | lia|].
    exists tup. split; [|split].
    + eapply ascending_weaken; [|done]. lia.
    + rewrite !len_cons. lia.
    + rewrite deleted_skip by (lia || done). by rewrite Hdel.
  - assert (prev < len seq) as Hlt.
    { destruct (decide (prev < len seq)); [done|].
      rewrite slice_from_drop, drop_ge in Hrest by (unfold len in *; lia).
      done. }
    rewrite slice_from_cons in Hrest by lia. injection Hrest as -> ->.
    destruct (IH (prev + 1)) as (tup & Hasc & Hlen & Hdel); [done | lia|].
    exists (prev :: tup). split; [|split].
    + simpl. split; [lia | done].
    + rewrite !len_cons. lia.
    + simpl. by rewrite slice_empty, Hdel by lia.
Qed.

(** X1: for a deletion count of at least one, [get_deletion_seqs] returns
    a set (its length assertion never fails), and its elements are exactly
    the subsequences of [seq] that are [ndel] characters shorter. *)
Theorem deletions_are_the_shorter_subsequences (seq : str) (ndel : Z) :
  1 ≤ ndel →
  ∃ S, get_deletion_seqs seq ndel = Ok S
       ∧ ∀ x, x ∈ S ↔ x `sublist_of` seq ∧ len x = len seq - ndel.
Proof.
  intros Hpos.
  destruct (get_deletion_seqs_elements seq ndel Hpos) as (S & HS & Hin).
  exists S. split; [done|]. pose proof (len_nonneg seq).
  intros x. rewrite Hin. split.
  - intros (tup & [Hlen Hasc]%combinations_nat_range & ->). split.
    + pose proof (deleted_sublist seq 0 tup ltac:(lia) Hasc) as Hsub.
      by rewrite slice_from_drop, drop_0 in Hsub by lia.
    + rewrite len_deleted by (lia || done). unfold len. lia.
  - intros [Hsub Hlen].
    destruct (sublist_deleted seq x seq 0 Hsub) as (tup & Hasc & Htup & Hdel);
      [by rewrite slice_from_drop, drop_0 by lia | lia|].
    exists tup. split; [|done].
    apply combinations_nat_range_2; [unfold len in *; lia | done].
Qed.

Lemma deletions_are_the_shorter_subsequences_witness :
  ∃ S, get_deletion_seqs (lit "ACGT") 2 = Ok S
       ∧ ∀ x, x ∈ S ↔
              x `sublist_of` lit "ACGT" ∧ len x = len (lit "ACGT") - 2.
Proof.
  apply (deletions_are_the_shorter_subsequences (lit "ACGT") 2). lia.
Defined.

(** ** Counts beyond the length *)

Lemma combinations_nat_too_many {A} (l : list A) (r : nat) :
  (length l < r)%nat → combinations_nat l r = [].
Proof.
  revert r. induction l as [|x l IH]; intros [|r] Hr; simpl in *; try lia.
  - done.
  - by rewrite !IH by lia.
Qed.

(** X2: asking for more deletions, insertions or mismatches than the
    sequence has positions is no error: there is no tuple of positions to
    choose, and each enumerator returns the empty set. *)
Theorem more_edits_than_positions_give_empty_set (seq : str) (n : Z) :
  len seq < n →
  get_deletion_seqs seq n = Ok ∅
  ∧ get_insertion_seqs seq n = Ok ∅
  ∧ get_mismatch_seqs seq n = Ok ∅.
Proof.
  intros Hn. pose proof (len_nonneg seq).
  unfold get_deletion_seqs, get_insertion_seqs, get_mismatch_seqs, combinations.
  destruct (Z.ltb_spec n 0); [lia|].
  rewrite !combinations_nat_too_many; [done|..];
    unfold range, len in *; rewrite length_fmap, length_seq; lia.
Qed.

Lemma more_edits_than_positions_give_empty_set_witness :
  get_deletion_seqs (lit "ACG") 4 = Ok ∅
  ∧ get_insertion_seqs (lit "ACG") 4 = Ok ∅
  ∧ get_mismatch_seqs (lit "ACG") 4 = Ok ∅.
Proof.
  apply (more_edits_than_positions_give_empty_set (lit "ACG") 4).
  vm_compute. reflexivity.
Defined.

(** ** Insertions *)

Lemma inserted_drop (seq : str) (prev : Z) (tup : list Z)
    (ins_bases : list ascii) (j : nat) (t : Z) (b : ascii) :
  tup !! j = Some t →
  ins_bases !! j = Some b →
  inserted seq prev (drop j tup) (drop j ins_bases)
  = slice seq prev t
      ++ b :: inserted seq t (drop (S j) tup) (drop (S j) ins_bases).
Proof.
  intros Ht Hb. by rewrite (drop_S tup t j), (drop_S ins_bases b j).
Qed.

Lemma len_inserted (seq : str) (prev : Z) (tup : list Z)
    (ins_bases : list ascii) :
  length ins_bases = length tup →
  0 ≤ prev ≤ len seq →
  ascending (len seq + 1) prev tup →
  len (inserted seq prev tup ins_bases) = len seq - prev + len tup.
Proof.
  revert prev ins_bases.
  induction tup as [|t tup IH]; intros prev [|b ins] Hlen Hprev Hasc;
    simplify_eq/=.
  - rewrite len_slice_from by done. unfold len at 3. simpl. lia.
  - destruct Hasc as [Ht Hasc].
    rewrite len_app, !len_cons, len_slice, IH; [lia | done | lia | | lia..].
    eapply ascending_weaken; [|done]. lia.
Qed.

Lemma inserted_sublist (seq : str) (prev : Z) (tup : list Z)
    (ins_bases : list ascii) :
  0 ≤ prev →
  ascending (len seq + 1) prev tup →
  slice_from seq prev `sublist_of` inserted seq prev tup ins_bases.
Proof.
  revert prev ins_bases.
  induction tup as [|t tup IH]; intros prev [|b ins] Hprev Hasc; simpl;
    try done.
  destruct Hasc as [Ht Hasc].
  rewrite (slice_from_split seq prev t) by lia.
  apply sublist_app; [done|]. apply sublist_cons. apply IH; [lia|].
  eapply ascending_weaken; [|done]. lia.
Qed.

Lemma inserted_head (seq : str) (tup : list Z) (ins_bases : list ascii) :
  tup ≠ [] →
  ascending (len seq + 1) 1 tup →
  head (inserted seq 0 tup ins_bases) = head seq.
Proof.
  destruct tup as [|t tup]; [done|]. intros _ [Ht _].
  destruct ins_bases as [|b ins]; simpl.
  - by rewrite slice_from_drop, drop_0 by lia.
  - rewrite slice_0, slice_to_take by lia.
    destruct seq as [|c seq']; [unfold len in Ht; simpl in Ht; lia|].
    by replace (Z.to_nat t) with (S (Z.to_nat (t - 1))) by lia.
Qed.

Section insertion_loop.
Variables (seq : str) (tup : list Z) (ins_bases : list ascii).
Hypothesis same_length : length ins_bases = length tup.

Lemma slot_lookup (j : nat) :
  (j < length tup)%nat → tup !! j = Some (nth_pos tup j).
Proof.
  intros Hj. unfold nth_pos.
  by destruct (lookup_lt_is_Some_2 tup j Hj) as [t ->].
Qed.

Lemma ins_bases_lookup (j : nat) :
  (j < length tup)%nat → ins_bases !! j = Some (nth_base ins_bases j).
Proof.
  intros Hj. unfold nth_base.
  destruct (lookup_lt_is_Some_2 ins_bases j) as [b ->]; [lia | done].
Qed.

Lemma slot_pair_lookup (j : nat) :
  (S j < length tup)%nat →
  zip tup (drop 1 tup) !! j = Some (nth_pos tup j, nth_pos tup (S j)).
Proof.
  intros Hj. apply lookup_zip_with_Some. eexists _, _. split; [done|].
  split; [apply slot_lookup; lia|].
  rewrite lookup_drop. apply slot_lookup. lia.
Qed.

Lemma insertion_loop_prefix (j : nat) :
  (j < length tup)%nat →
  for_ (enumerate (take j (zip tup (drop 1 tup)))) (slice_to seq (nth_pos tup 0))
    (λ newseq '(base_idx, (i, j)),
       b ← index ins_bases base_idx;
       Ok (newseq ++ b :: slice seq i j))
  = Ok (inserted_prefix seq tup ins_bases j).
Proof.
  induction j as [|j IH]; intros Hj; [done|].
  rewrite (take_S_r _ _ _ (slot_pair_lookup j Hj)).
  rewrite enumerate_snoc, for_snoc, IH, bind_Ok by lia.
  unfold len. rewrite length_take_le by (rewrite length_zip, length_drop; lia).
  assert (index ins_bases (Z.of_nat j) = Ok (nth_base ins_bases j)) as ->.
  { apply index_Ok; [lia|]. rewrite Nat2Z.id. apply ins_bases_lookup. lia. }
  done.
Qed.

Lemma inserted_prefix_rest (j : nat) :
  (j < length tup)%nat →
  inserted_prefix seq tup ins_bases j
    ++ nth_base ins_bases j
         :: inserted seq (nth_pos tup j) (drop (S j) tup) (drop (S j) ins_bases)
  = inserted seq 0 tup ins_bases.
Proof.
  induction j as [|j IH]; intros Hj.
  - transitivity (inserted seq 0 (drop 0 tup) (drop 0 ins_bases));
      [|by rewrite !drop_0].
    rewrite (inserted_drop seq 0 tup ins_bases 0
               (nth_pos tup 0) (nth_base ins_bases 0))
      by (by apply slot_lookup || by apply ins_bases_lookup).
    simpl. by rewrite slice_0.
  - rewrite <-IH by lia.
    rewrite (inserted_drop seq _ tup ins_bases (S j)
               (nth_pos tup (S j)) (nth_base ins_bases (S j)))
      by (by apply slot_lookup || by apply ins_bases_lookup).
    simpl. by rewrite <-app_assoc.
Qed.

Lemma get_insertion_newseq_inserted (nins : Z) :
  len tup = nins →
  1 ≤ nins →
  ascending (len seq + 1) 1 tup →
  get_insertion_newseq seq nins tup ins_bases
  = Ok (inserted seq 0 tup ins_bases).
Proof.
  intros Hlen Hpos Hasc. unfold get_insertion_newseq, len in *.
  set (k := length tup) in *.
  rewrite assert_true_bind by (apply Z.eqb_eq; lia).
  assert (index tup 0 = Ok (nth_pos tup 0)) as ->.
  { apply index_Ok; [lia|]. apply slot_lookup. lia. }
  rewrite bind_Ok.
  assert (zip tup (slice_from tup 1) = take (k - 1) (zip tup (drop 1 tup)))
    as ->.
  { rewrite slice_from_drop by lia.
    rewrite take_ge; [done|]. rewrite length_zip, length_drop. lia. }
  rewrite insertion_loop_prefix, bind_Ok by lia.
  destruct (index_neg1 ins_bases (nth_base ins_bases (k - 1))) as [-> _].
  { rewrite same_length. apply ins_bases_lookup. lia. }
  destruct (index_neg1 tup (nth_pos tup (k - 1))) as [-> _].
  { apply slot_lookup. lia. }
  rewrite !bind_Ok.
  assert (inserted_prefix seq tup ins_bases (k - 1)
            ++ nth_base ins_bases (k - 1)
                 :: slice_from seq (nth_pos tup (k - 1))
          = inserted seq 0 tup ins_bases) as ->.
  { rewrite <-(inserted_prefix_rest (k - 1)) by lia.
    replace (S (k - 1)) with k by lia.
    rewrite (drop_ge tup), (drop_ge ins_bases) by lia. done. }
  rewrite assert_true_bind; [done|].
  apply Z.eqb_eq. pose proof (len_nonneg seq).
  fold (len (inserted seq 0 tup ins_bases)).
  rewrite len_inserted; [unfold len; lia | done | lia |].
  eapply ascending_weaken; [|done]. lia.
Qed.
End insertion_loop.

Lemma get_insertion_seqs_elements (seq : str) (nins : Z) :
  1 ≤ nins →
  ∃ S, get_insertion_seqs seq nins = Ok S
       ∧ ∀ x, x ∈ S ↔
              ∃ tup ins_bases,
                tup ∈ combinations_nat (range 1 (len seq + 1)) (Z.to_nat nins)
                ∧ is_dna ins_bases ∧ len ins_bases = nins
                ∧ x = inserted seq 0 tup ins_bases.
Proof.
  intros Hpos. unfold get_insertion_seqs, combinations.
  destruct (Z.ltb_spec nins 0); [lia|]. rewrite bind_Ok.
  destruct (product_repeat_bases nins) as (all & Hall & Hin); [lia|].
  destruct (for_union
              (λ tup, list_to_set (inserted seq 0 tup <$> all))
              (combinations_nat (range 1 (len seq + 1)) (Z.to_nat nins)) ∅
              (λ outset tup,
                 all_ins_bases ← product_repeat bases nins;
                 for_ all_ins_bases outset (λ outset ins_bases,
                   newseq ← get_insertion_newseq seq nins tup ins_bases;
                   Ok ({[ newseq ]} ∪ outset))))
    as (S & HS & HinS).
  { intros outset tup [Hlen Hasc]%combinations_nat_range.
    rewrite Hall, bind_Ok.
    rewrite (for_add (get_insertion_newseq seq nins tup)).
    rewrite (comprehension_total _ (inserted seq 0 tup)); [done|].
    intros ins [_ Hins]%Hin. apply get_insertion_newseq_inserted.
    - unfold len in Hins. lia.
    - unfold len. lia.
    - done.
    - done. }
  exists S. split; [done|]. intros x. rewrite HinS, elem_of_empty. split.
  - intros [[]|(tup & Htup & Hx)]. apply elem_of_list_to_set in Hx.
    apply list_elem_of_fmap in Hx as (ins & -> & [? ?]%Hin).
    by exists tup, ins.
  - intros (tup & ins & Htup & ? & ? & ->). right. exists tup. split; [done|].
    apply elem_of_list_to_set, list_elem_of_fmap. exists ins. split; [done|].
    by apply Hin.
Qed.

(** X3: for an insertion count of at least one, [get_insertion_seqs]
    returns a set (neither assertion fails); each element is exactly
    [nins] characters longer than [seq], contains [seq] as a subsequence
    and starts with the first character of [seq], since no base is ever
    put in front of the sequence. *)
Theorem insertions_are_longer_supersequences (seq : str) (nins : Z) :
  1 ≤ nins →
  ∃ S, get_insertion_seqs seq nins = Ok S
       ∧ ∀ x, x ∈ S →
              len x = len seq + nins
              ∧ seq `sublist_of` x
              ∧ head x = head seq.
Proof.
  intros Hpos.
  destruct (get_insertion_seqs_elements seq nins Hpos) as (S & HS & Hin).
  exists S. split; [done|].
  intros x (tup & ins & [Hlen Hasc]%combinations_nat_range & _ & Hins & ->)%Hin.
  pose proof (len_nonneg seq). unfold len in Hins.
  split; [|split].
  - rewrite len_inserted; [unfold len; lia | lia | lia |].
    eapply ascending_weaken; [|done]. lia.
  - pose proof (inserted_sublist seq 0 tup ins ltac:(lia)) as Hsub.
    rewrite slice_from_drop, drop_0 in Hsub by lia. apply Hsub.
    eapply ascending_weaken; [|done]. lia.
  - apply inserted_head; [|done]. intros ->. simpl in Hlen. lia.
Qed.

Lemma insertions_are_longer_supersequences_witness :
  ∃ S, get_insertion_seqs (lit "ACG") 2 = Ok S
       ∧ ∀ x, x ∈ S →
              len x = len (lit "ACG") + 2
              ∧ lit "ACG" `sublist_of` x
              ∧ head x = head (lit "ACG").
Proof. apply (insertions_are_longer_supersequences (lit "ACG") 2). lia. Defined.

(** ** Complements of whole sequences and of their ends *)

Lemma complements_get_KeyError c :
  c ∉ bases → complements_get c = Raise KeyError.
Proof.
  intros Hc. unfold complements_get.
  destruct (complements !! c) as [d|] eqn:Hd; [|done].
  destruct Hc. apply elem_of_list_to_map_2 in Hd.
  apply elem_of_bases. set_solver.
Qed.

Lemma forward_complement_not_dna s :
  ¬ is_dna s → forward_complement s = Raise KeyError.
Proof.
  unfold forward_complement, is_dna.
  induction s as [|c s IH]; intros Hs; [by destruct Hs|].
  rewrite comprehension_cons.
  destruct (decide (c ∈ bases)) as [Hc|Hc].
  - rewrite complements_get_base, bind_Ok by done.
    rewrite IH; [done|]. intros Hs'. apply Hs. by constructor.
  - by rewrite complements_get_KeyError.
Qed.

Lemma hamming_compl s :
  is_dna s → simple_hamming_distance s (compl <$> s) = len s.
Proof.
  induction 1 as [|c s Hc Hs IH]; [done|].
  rewrite fmap_cons, hamming_cons, IH, len_cons.
  destruct (decide (c = compl c)) as [Heq|]; [|done].
  by destruct (compl_ne c Hc).
Qed.

(** X4: [forward_complement] succeeds exactly on sequences over [ACGT];
    any other character makes the dictionary lookup raise [KeyError].
    When it succeeds, the outcome is again over [ACGT], has the length of
    the input and differs from it at every position. *)
Theorem forward_complement_defined_on_ACGT_only (seq : str) :
  match forward_complement seq with
  | Ok comp =>
      is_dna seq ∧ is_dna comp ∧ len comp = len seq
      ∧ simple_hamming_distance seq comp = len seq
  | Raise e => e = KeyError ∧ ¬ is_dna seq
  end.
Proof.
  destruct (decide (is_dna seq)) as [Hdna|Hdna].
  - rewrite forward_complement_dna by done.
    split; [done|]. split; [by apply is_dna_compl|]. split.
    + unfold len. by rewrite length_fmap.
    + by apply hamming_compl.
  - by rewrite forward_complement_not_dna.
Qed.

(** X5: on a sequence over [ACGT], [switch_end_to_complement] returns a
    sequence of the same length that differs from [seq] in exactly the
    last [num_bases] positions (all of them when [num_bases] exceeds the
    length, none when it is zero or negative), and switching the same
    end again gives [seq] back. *)
Theorem switch_end_to_complement_round_trip (seq : str) (num_bases : Z) :
  is_dna seq →
  ∃ r, switch_end_to_complement seq num_bases = Ok r
       ∧ len r = len seq
       ∧ slice_to r (- num_bases) = slice_to seq (- num_bases)
       ∧ simple_hamming_distance seq r = Z.min (Z.max 0 num_bases) (len seq)
       ∧ switch_end_to_complement r num_bases = Ok seq.
Proof.
  intros Hdna. unfold switch_end_to_complement.
  pose proof (len_nonneg seq) as Hlen.
  destruct (Z.leb_spec num_bases 0) as [Hn|Hn].
  { exists seq. rewrite hamming_same. repeat split; lia. }
  unfold slice_to, slice_from.
  assert (∃ k, Z.to_nat (adjust (len seq) (- num_bases)) = k
               ∧ (k ≤ length seq)%nat
               ∧ Z.of_nat k = Z.max 0 (len seq - num_bases))
    as (k & Hk & Hle & Hkz).
  { eexists. split; [done|]. unfold adjust, len in *.
    destruct (Z.ltb_spec (- num_bases) 0); lia. }
  rewrite Hk.
  rewrite forward_complement_dna by by apply is_dna_drop.
  rewrite bind_Ok.
  set (r := take k seq ++ (compl <$> drop k seq)).
  assert (length (take k seq) = k) as Htake by (rewrite length_take; lia).
  assert (len r = len seq) as Hr.
  { unfold r, len.
    rewrite length_app, length_fmap, length_take, length_drop. lia. }
  exists r. split; [done|]. split; [done|]. rewrite Hr, Hk.
  split; [|split].
  - unfold r. by rewrite take_app_length'.
  - rewrite <-(take_drop k seq) at 1. unfold r.
    rewrite hamming_app, hamming_same, hamming_compl
      by (done || by apply is_dna_drop).
    unfold len in *. rewrite length_drop. lia.
  - unfold r. rewrite drop_app_length', take_app_length' by done.
    rewrite forward_complement_dna by by apply is_dna_compl, is_dna_drop.
    rewrite bind_Ok, compl_compl_dna by by apply is_dna_drop.
    by rewrite take_drop.
Qed.

Lemma switch_end_to_complement_round_trip_witness :
  ∃ r, switch_end_to_complement (lit "ACGTT") 2 = Ok r
       ∧ len r = len (lit "ACGTT")
       ∧ slice_to r (- 2) = slice_to (lit "ACGTT") (- 2)
       ∧ simple_hamming_distance (lit "ACGTT") r
         = Z.min (Z.max 0 2) (len (lit "ACGTT"))
       ∧ switch_end_to_complement r 2 = Ok (lit "ACGTT").
Proof.
  apply (switch_end_to_complement_round_trip (lit "ACGTT") 2). dna_literal.
Defined.

(** ** Reverse complement *)

Lemma dna_complements_involutive (c : ascii) :
  default (default c (dna_complements !! c))
          (dna_complements !! default c (dna_complements !! c)) = c.
Proof.
  destruct (dna_complements !! c) as [d|] eqn:Hd; simpl; [|by rewrite Hd].
  apply elem_of_list_to_map_2 in Hd. unfold lit in Hd. simpl in Hd.
  repeat (apply elem_of_cons in Hd as [[= -> ->]|Hd]; [reflexivity|]).
  by apply elem_of_nil in Hd.
Qed.

Lemma dna_complements_base (c : ascii) :
  c ∈ bases → default c (dna_complements !! c) = compl c.
Proof.
  rewrite elem_of_bases. intros [->|[->|[->| ->]]]; reflexivity.
Qed.

(** X6: [dna_rev_comp] undoes itself on every string, whatever its
    characters (those outside the translation table are kept), and keeps
    the length. *)
Theorem dna_rev_comp_involutive (dna_string : str) :
  dna_rev_comp (dna_rev_comp dna_string) = dna_string
  ∧ len (dna_rev_comp dna_string) = len dna_string.
Proof.
  unfold dna_rev_comp, translate, len. split.
  - rewrite fmap_reverse, reverse_involutive, <-list_fmap_compose.
    rewrite <-(list_fmap_id dna_string) at 2.
    apply list_fmap_ext. intros _ c _. apply dna_complements_involutive.
  - by rewrite length_reverse, length_fmap.
Qed.

(** X7: the two complement tables of the module agree on upper-case
    [ACGT]: for such a sequence [dna_rev_comp] is the reversal of what
    [forward_complement] returns. *)
Theorem dna_rev_comp_reverses_forward_complement (seq : str) :
  is_dna seq →
  ∃ comp, forward_complement seq = Ok comp
          ∧ dna_rev_comp seq = reverse comp.
Proof.
  intros Hdna. exists (compl <$> seq).
  split; [by apply forward_complement_dna|].
  unfold dna_rev_comp, translate. f_equal.
  apply Forall_fmap_ext. eapply Forall_impl; [exact Hdna|].
  intros c Hc. by apply dna_complements_base.
Qed.

Lemma dna_rev_comp_reverses_forward_complement_witness :
  ∃ comp, forward_complement (lit "AACGT") = Ok comp
          ∧ dna_rev_comp (lit "AACGT") = reverse comp.
Proof.
  apply (dna_rev_comp_reverses_forward_complement (lit "AACGT")). dna_literal.
Defined.

(** ** Stretches *)

Lemma hamming_bounds s1 s2 : 0 ≤ simple_hamming_distance s1 s2 ≤ len s1.
Proof.
  revert s2. induction s1 as [|c s1 IH]; intros [|d s2].
  - done.
  - done.
  - rewrite hamming_nil_r. pose proof (len_nonneg (c :: s1)). lia.
  - rewrite hamming_cons, len_cons. specialize (IH s2).
    destruct (decide (c = d)); lia.
Qed.

(** Replacing a window changes the sequence inside the window only. *)
Lemma hamming_replaced_span (seq mid : str) (i j : Z) :
  0 ≤ i ≤ j → j ≤ len seq → len mid = j - i →
  simple_hamming_distance seq (slice_to seq i ++ mid ++ slice_from seq j)
  = simple_hamming_distance (slice seq i j) mid.
Proof.
  intros Hi Hj Hmid.
  transitivity (simple_hamming_distance
                  (slice_to seq i ++ slice seq i j ++ slice_from seq j)
                  (slice_to seq i ++ mid ++ slice_from seq j)).
  { by rewrite <-slice_split by lia. }
  rewrite !hamming_app, !hamming_same; [lia | | done].
  pose proof (len_slice seq i j Hi Hj). unfold len in *. lia.
Qed.

Lemma len_replaced_span (seq mid : str) (i j : Z) :
  0 ≤ i ≤ j → j ≤ len seq → len mid = j - i →
  len (slice_to seq i ++ mid ++ slice_from seq j) = len seq.
Proof.
  intros Hi Hj Hmid. rewrite !len_app, len_slice_to, len_slice_from; lia.
Qed.

(** X8: on a sequence over [ACGT] and for a stretch length of zero or
    more, every element of [get_stretch_of_complement_seqs] is over
    [ACGT], has the length of [seq] and differs from [seq] in exactly
    [num_bases] positions. *)
Theorem stretch_complements_differ_in_stretch_only (seq : str) (num_bases : Z) :
  is_dna seq →
  0 ≤ num_bases →
  ∃ S, get_stretch_of_complement_seqs seq num_bases = Ok S
       ∧ ∀ x, x ∈ S →
              is_dna x ∧ len x = len seq
              ∧ simple_hamming_distance seq x = num_bases.
Proof.
  intros Hdna Hw. eexists.
  split; [by apply get_stretch_of_complement_seqs_dna|].
  intros x (i & -> & Hi%elem_of_range)%elem_of_list_to_set%list_elem_of_fmap.
  assert (len (compl <$> slice seq i (i + num_bases)) = i + num_bases - i)
    as Hmid.
  { unfold len. rewrite length_fmap. apply len_slice; lia. }
  split; [|split].
  - rewrite !is_dna_app.
    auto using is_dna_slice_to, is_dna_slice_from, is_dna_compl, is_dna_slice.
  - apply len_replaced_span; lia.
  - rewrite hamming_replaced_span by lia.
    rewrite hamming_compl by by apply is_dna_slice.
    rewrite len_slice; lia.
Qed.

Lemma stretch_complements_differ_in_stretch_only_witness :
  ∃ S, get_stretch_of_complement_seqs (lit "ACGTT") 2 = Ok S
       ∧ ∀ x, x ∈ S →
              is_dna x ∧ len x = len (lit "ACGTT")
              ∧ simple_hamming_distance (lit "ACGTT") x = 2.
Proof.
  apply (stretch_complements_differ_in_stretch_only (lit "ACGTT") 2);
    [dna_literal | lia].
Defined.

Lemma get_randomized_stretch_seqs_elements (seq : str) (num_bases : Z) :
  0 ≤ num_bases →
  ∃ S, get_randomized_stretch_seqs seq num_bases = Ok S
       ∧ ∀ x, x ∈ S ↔
              ∃ i rand_seq,
                0 ≤ i ≤ len seq - num_bases
                ∧ is_dna rand_seq ∧ len rand_seq = num_bases
                ∧ x = slice_to seq i ++ rand_seq
                        ++ slice_from seq (i + num_bases).
Proof.
  intros Hn.
  destruct (product_repeat_bases num_bases) as (all & Hall & Hin); [lia|].
  unfold get_randomized_stretch_seqs. rewrite Hall, bind_Ok.
  eexists. split; [done|]. intros x.
  rewrite (elem_of_foldl_update
             (λ i, (λ rand_seq,
                      slice_to seq i ++ rand_seq
                        ++ slice_from seq (i + num_bases))
                     <$> all)).
  rewrite elem_of_empty. split.
  - intros [[]|(i & Hi%elem_of_range & (r & -> & Hr%Hin)%list_elem_of_fmap)].
    exists i, r. split; [lia|]. tauto.
  - intros (i & r & Hi & Hr1 & Hr2 & ->). right. exists i.
    split; [apply elem_of_range; lia|].
    apply list_elem_of_fmap. exists r. split; [done|]. by apply Hin.
Qed.

(** X9: for a stretch length of zero or more, every element of
    [get_randomized_stretch_seqs] has the length of [seq] and differs from
    it in at most [num_bases] positions; when [seq] is over [ACGT] and at
    least [num_bases] long, [seq] itself is among the outputs. *)
Theorem randomized_stretches_stay_close (seq : str) (num_bases : Z) :
  0 ≤ num_bases →
  ∃ S, get_randomized_stretch_seqs seq num_bases = Ok S
       ∧ (∀ x, x ∈ S →
               len x = len seq
               ∧ simple_hamming_distance seq x ≤ num_bases)
       ∧ (is_dna seq → num_bases ≤ len seq → seq ∈ S).
Proof.
  intros Hn.
  destruct (get_randomized_stretch_seqs_elements seq num_bases Hn)
    as (S & HS & Hin).
  exists S. split; [done|]. split.
  - intros x (i & r & Hi & _ & Hr & ->)%Hin. split.
    + apply len_replaced_span; lia.
    + rewrite hamming_replaced_span by lia.
      pose proof (hamming_bounds (slice seq i (i + num_bases)) r).
      rewrite len_slice in *; lia.
  - intros Hdna Hle. apply Hin. exists 0, (slice seq 0 (0 + num_bases)).
    split; [lia|]. split; [by apply is_dna_slice|].
    split; [rewrite len_slice; lia|]. apply slice_split. lia.
Qed.

Lemma randomized_stretches_stay_close_witness :
  ∃ S, get_randomized_stretch_seqs (lit "ACGTT") 2 = Ok S
       ∧ (∀ x, x ∈ S →
               len x = len (lit "ACGTT")
               ∧ simple_hamming_distance (lit "ACGTT") x ≤ 2)
       ∧ (is_dna (lit "ACGTT") → 2 ≤ len (lit "ACGTT") → lit "ACGTT" ∈ S).
Proof. apply (randomized_stretches_stay_close (lit "ACGTT") 2). lia. Defined.

(** X10: on a sequence over [ACGT], every sequence that
    [get_stretch_of_complement_seqs] returns is also returned by
    [get_randomized_stretch_seqs] for the same stretch length. *)
Theorem stretch_complements_are_randomized_stretches
    (seq : str) (num_bases : Z) :
  is_dna seq →
  0 ≤ num_bases →
  ∃ C R, get_stretch_of_complement_seqs seq num_bases = Ok C
         ∧ get_randomized_stretch_seqs seq num_bases = Ok R
         ∧ C ⊆ R.
Proof.
  intros Hdna Hn.
  destruct (get_randomized_stretch_seqs_elements seq num_bases Hn)
    as (R & HR & Hin).
  eexists _, R. split; [by apply get_stretch_of_complement_seqs_dna|].
  split; [done|].
  intros x (i & -> & Hi%elem_of_range)%elem_of_list_to_set%list_elem_of_fmap.
  apply Hin. exists i, (compl <$> slice seq i (i + num_bases)).
  split; [lia|]. split; [by apply is_dna_compl, is_dna_slice|].
  split; [|done]. unfold len. rewrite length_fmap.
  transitivity (i + num_bases - i); [apply len_slice; lia | lia].
Qed.

Lemma stretch_complements_are_randomized_stretches_witness :
  ∃ C R, get_stretch_of_complement_seqs (lit "ACGTT") 2 = Ok C
         ∧ get_randomized_stretch_seqs (lit "ACGTT") 2 = Ok R
         ∧ C ⊆ R.
Proof.
  apply (stretch_complements_are_randomized_stretches (lit "ACGTT") 2);
    [dna_literal | lia].
Defined.

(** ** Randomized regions *)

Lemma length_bind_const {A B} (f : A → list B) (l : list A) (m : nat) :
  (∀ x, length (f x) = m) → length (l ≫= f) = (length l * m)%nat.
Proof.
  intros Hf. induction l as [|x l IH]; csimpl; [done|].
  by rewrite length_app, Hf, IH.
Qed.

Lemma length_product_replicate {A} (n : nat) (l : list A) :
  length (product (replicate n l)) = (length l ^ n)%nat.
Proof.
  induction n as [|n IH]; simpl; [done|].
  rewrite (length_bind_const _ _ (length l ^ n)); [done|].
  intros x. by rewrite length_fmap.
Qed.

Lemma NoDup_product {A} (ls : list (list A)) :
  Forall NoDup ls → NoDup (product ls).
Proof.
  induction 1 as [|l ls Hl Hls IH]; simpl; [apply NoDup_singleton|].
  apply NoDup_bind; [| |done].
  - intros x1 x2 y _ _ (y1 & -> & _)%list_elem_of_fmap
      (y2 & [= -> _] & _)%list_elem_of_fmap. done.
  - intros x _. apply NoDup_fmap_2_strong; [|done]. by intros ?? _ _ [= ->].
Qed.

Lemma NoDup_bases : NoDup bases.
Proof. by apply (bool_decide_unpack _). Qed.

(** X11: for [0 <= start < end <= len(seq)], the set returned by
    [get_randomized_region_seqs] consists of exactly the sequences of the
    length of [seq] that agree with [seq] before [start] and from [end] on
    and carry letters of [ACGT] in between; there are [4^(end-start)] of
    them. *)
Theorem randomized_region_is_every_filling (seq : str) (start end_ : Z) :
  0 ≤ start < end_ →
  end_ ≤ len seq →
  ∃ S, get_randomized_region_seqs seq start end_ = Ok S
       ∧ (∀ x, x ∈ S ↔
               len x = len seq
               ∧ slice_to x start = slice_to seq start
               ∧ is_dna (slice x start end_)
               ∧ slice_from x end_ = slice_from seq end_)
       ∧ Z.of_nat (size S) = 4 ^ (end_ - start).
Proof.
  intros Hse Hend. unfold get_randomized_region_seqs, product_repeat.
  rewrite assert_true_bind by (apply Z.ltb_lt; lia).
  destruct (Z.ltb_spec (end_ - start) 0); [lia|]. rewrite bind_Ok.
  eexists. split; [done|]. split.
  - intros x. rewrite elem_of_list_to_set, list_elem_of_fmap. split.
    + intros (r & -> & [Hr1 Hr2]%elem_of_product_replicate).
      assert (len r = end_ - start) as Hr by (unfold len; lia).
      destruct (slices_of_replaced_span seq r start end_) as (H1 & H2 & H3);
        [lia..|].
      rewrite H1, H2, H3. split; [apply len_replaced_span; lia | done].
    + intros (Hlen & Hto & Hmid & Hfrom). exists (slice x start end_). split.
      * rewrite <-Hto, <-Hfrom. apply slice_split. lia.
      * apply elem_of_product_replicate. split; [|done].
        pose proof (len_slice x start end_). unfold len in *. lia.
  - rewrite size_list_to_set.
    + rewrite length_fmap, length_product_replicate.
      change (length bases) with 4%nat.
      rewrite Nat2Z.inj_pow. f_equal. lia.
    + apply NoDup_fmap_2_strong.
      * by intros r1 r2 _ _ ?%app_inv_head%app_inv_tail.
      * apply NoDup_product, Forall_replicate, NoDup_bases.
Qed.

Lemma randomized_region_is_every_filling_witness :
  ∃ S, get_randomized_region_seqs (lit "ACGTACGT") 2 5 = Ok S
       ∧ (∀ x, x ∈ S ↔
               len x = len (lit "ACGTACGT")
               ∧ slice_to x 2 = slice_to (lit "ACGTACGT") 2
               ∧ is_dna (slice x 2 5)
               ∧ slice_from x 5 = slice_from (lit "ACGTACGT") 5)
       ∧ Z.of_nat (size S) = 4 ^ (5 - 2).
Proof.
  apply (randomized_region_is_every_filling (lit "ACGTACGT") 2 5).
  - lia.
  - vm_compute. discriminate.
Defined.

(** X12: on a sequence over [ACGT] and a region within it, every
    sequence that [get_mismatches_in_region] returns is also returned by
    [get_randomized_region_seqs] for the same region; the randomized set
    contains [seq] itself, the set of mismatches does not. *)
Theorem region_mismatches_are_randomized_regions
    (seq : str) (start end_ num_mm : Z) :
  is_dna seq →
  0 ≤ start < end_ →
  end_ ≤ len seq →
  1 ≤ num_mm →
  ∃ M R, get_mismatches_in_region seq start end_ num_mm = Ok M
         ∧ get_randomized_region_seqs seq start end_ = Ok R
         ∧ M ⊆ R ∧ seq ∈ R ∧ seq ∉ M.
Proof.
  intros Hdna Hse Hend Hnum.
  set (region := slice seq start end_).
  assert (len region = end_ - start) as Hregion by (apply len_slice; lia).
  assert (is_dna region) as Hdna' by by apply is_dna_slice.
  destruct (get_mismatch_seqs_elements region num_mm Hnum)
    as (M0 & HM0 & HinM0).
  unfold get_mismatches_in_region, get_randomized_region_seqs, product_repeat.
  fold region. rewrite HM0, bind_Ok.
  rewrite assert_true_bind by (apply Z.ltb_lt; lia).
  destruct (Z.ltb_spec (end_ - start) 0); [lia|]. rewrite bind_Ok.
  eexists _, _. split; [done|]. split; [done|].
  assert (∀ m, m ∈ M0 →
               is_dna m ∧ len m = end_ - start
               ∧ simple_hamming_distance m region = num_mm) as Hm.
  { intros m (tup & mm & [Hlen Hasc]%combinations_nat_range & Hmm & ->)%HinM0.
    unfold mismatch_choices in Hmm. split; [|split].
    - apply is_dna_spliced; [done|].
      apply Forall2_Forall_l with (Q := λ c, c ∈ bases) in Hmm; [done|].
      apply Forall_true. tauto.
    - rewrite len_spliced; [lia | lia | done].
    - pose proof (hamming_spliced region 0 tup mm) as Hham.
      rewrite slice_from_drop, drop_0 in Hham by lia.
      rewrite Hham; [unfold len; lia | lia | done |].
      eapply Forall2_impl; [done|]. tauto. }
  split; [|split].
  - intros x (m & -> & Hx%elem_of_elements)%elem_of_list_to_set%list_elem_of_fmap.
    destruct (Hm m Hx) as (? & Hlen & _).
    apply elem_of_list_to_set, list_elem_of_fmap. exists m. split; [done|].
    apply elem_of_product_replicate. unfold len in Hlen. split; [lia | done].
  - apply elem_of_list_to_set, list_elem_of_fmap. exists region.
    split; [apply slice_split; lia|].
    apply elem_of_product_replicate. unfold len in Hregion.
    split; [lia | done].
  - intros (m & Heq & Hx%elem_of_elements)%elem_of_list_to_set%list_elem_of_fmap.
    destruct (Hm m Hx) as (_ & _ & Hham).
    rewrite (slice_split seq start end_) in Heq at 1 by lia.
    apply app_inv_head, app_inv_tail in Heq. fold region in Heq.
    rewrite <-Heq, hamming_same in Hham. lia.
Qed.

Lemma region_mismatches_are_randomized_regions_witness :
  ∃ M R, get_mismatches_in_region (lit "ACGTACGT") 2 5 1 = Ok M
         ∧ get_randomized_region_seqs (lit "ACGTACGT") 2 5 = Ok R
         ∧ M ⊆ R ∧ lit "ACGTACGT" ∈ R ∧ lit "ACGTACGT" ∉ M.
Proof.
  apply (region_mismatches_are_randomized_regions (lit "ACGTACGT") 2 5 1).
  - dna_literal.
  - lia.
  - vm_compute. discriminate.
  - lia.
Defined.

(** ** Every sequence at the given distance is a mismatch sequence *)

(** A position before the first substituted one is kept. *)
Lemma spliced_skip (seq : str) (prev : Z) (tup : list Z)
    (mm_bases : list ascii) :
  0 ≤ prev < len seq →
  ascending (len seq) (prev + 1) tup →
  spliced seq prev tup mm_bases
  = char_at seq prev :: spliced seq (prev + 1) tup mm_bases.
Proof.
  intros Hprev Hasc.
  destruct tup as [|t tup], mm_bases as [|c mm]; simpl;
    try by apply slice_from_cons.
  destruct Hasc as [Ht _]. by rewrite slice_cons by lia.
Qed.

(** A sequence of the right length is spliced from the positions at which
    it differs and from its characters there. *)
Lemma spliced_from_differences (seq x : str) (prev : Z) :
  is_dna x →
  0 ≤ prev ≤ len seq →
  len x = len seq - prev →
  ∃ tup mm_bases,
    ascending (len seq) prev tup
    ∧ mismatch_choices seq tup mm_bases
    ∧ len tup = simple_hamming_distance x (slice_from seq prev)
    ∧ spliced seq prev tup mm_bases = x.
Proof.
  intros Hdna. revert prev.
  induction Hdna as [|c2 x Hc2 Hx IH]; intros prev Hprev Hlen.
  - exists [], []. simpl. split; [done|]. split; [constructor|].
    split; [done|]. rewrite slice_from_drop by lia. apply drop_ge.
    unfold len in *. simpl in Hlen. lia.
  - rewrite len_cons in Hlen. pose proof (len_nonneg x).
    destruct (IH (prev + 1)) as (tup & mm & Hasc & Hmm & Hd & Hsp); [lia..|].
    rewrite (slice_from_cons seq prev), hamming_cons by lia.
    destruct (decide (c2 = char_at seq prev)) as [->|Hne].
    + exists tup, mm. split; [eapply ascending_weaken; [|done]; lia|].
      split; [done|]. split; [lia|].
      rewrite spliced_skip by (lia || done). by rewrite Hsp.
    + exists (prev :: tup), (c2 :: mm). split; [simpl; split; [lia | done]|].
      split; [by constructor|]. split; [rewrite len_cons; lia|].
      simpl. by rewrite slice_empty, Hsp by lia.
Qed.

(** X13: on a sequence over [ACGT] and for [num_mm >= 1],
    [get_mismatch_seqs] returns exactly the sequences over [ACGT] of the
    length of [seq] whose Hamming distance to [seq] is [num_mm]: none is
    left out. *)
Theorem mismatches_are_the_sequences_at_distance (seq : str) (num_mm : Z) :
  is_dna seq →
  1 ≤ num_mm →
  ∃ S, get_mismatch_seqs seq num_mm = Ok S
       ∧ ∀ x, x ∈ S ↔
              is_dna x ∧ len x = len seq
              ∧ simple_hamming_distance x seq = num_mm.
Proof.
  intros Hdna Hnum.
  destruct (get_mismatch_seqs_elements seq num_mm Hnum) as (S & HS & Hin).
  exists S. split; [done|]. pose proof (len_nonneg seq).
  intros x. rewrite Hin. split.
  - intros (tup & mm & [Hlen Hasc]%combinations_nat_range & Hmm & ->).
    unfold mismatch_choices in Hmm. split; [|split].
    + apply is_dna_spliced; [done|].
      apply Forall2_Forall_l with (Q := λ c, c ∈ bases) in Hmm; [done|].
      apply Forall_true. tauto.
    + rewrite len_spliced; [lia | lia | done].
    + pose proof (hamming_spliced seq 0 tup mm) as Hham.
      rewrite slice_from_drop, drop_0 in Hham by lia.
      rewrite Hham; [unfold len; lia | lia | done |].
      eapply Forall2_impl; [done|]. by intros c t [_ ?].
  - intros (Hx & Hlen & Hham).
    destruct (spliced_from_differences seq x 0 Hx)
      as (tup & mm & Hasc & Hmm & Hd & Hsp); [lia..|].
    rewrite slice_from_drop, drop_0 in Hd by lia.
    exists tup, mm. split; [|done].
    apply combinations_nat_range_2; [unfold len in *; lia | done].
Qed.

Lemma mismatches_are_the_sequences_at_distance_witness :
  ∃ S, get_mismatch_seqs (lit "ACGT") 2 = Ok S
       ∧ ∀ x, x ∈ S ↔
              is_dna x ∧ len x = len (lit "ACGT")
              ∧ simple_hamming_distance x (lit "ACGT") = 2.
Proof.
  apply (mismatches_are_the_sequences_at_distance (lit "ACGT") 2);
    [dna_literal | lia].
Defined.

(** ** Base-4 encoding beyond the round trip *)

Lemma str_index_ValueError (l : str) (c : ascii) :
  c ∉ l → str_index l c = Raise ValueError.
Proof.
  induction l as [|x l IH]; intros Hc; simpl; [done|].
  destruct (decide (x = c)) as [->|Hne]; [by destruct Hc; left|].
  rewrite IH; [done|]. intros Hin. apply Hc. by right.
Qed.

Lemma dna2num_not_dna (s : str) :
  ¬ is_dna s → dna2num s = Raise ValueError.
Proof.
  induction s as [|c s IH]; intros Hs; [by destruct Hs; constructor|].
  unfold dna2num. rewrite reverse_cons, enumerate_snoc, comprehension_app.
  destruct (decide (is_dna s)) as [Hdna|Hdna].
  - destruct (dna2num_dna s Hdna) as (v & Hv & _). unfold dna2num in Hv.
    destruct (comprehension _ (enumerate (reverse s))) as [terms|e];
      [|discriminate].
    rewrite bind_Ok, comprehension_singleton.
    rewrite str_index_ValueError; [done|].
    intros Hc. apply Hs. by constructor.
  - specialize (IH Hdna). unfold dna2num in IH.
    by destruct (comprehension _ (enumerate (reverse s))) as [terms|e].
Qed.

(** X14: [dna2num] succeeds exactly on sequences over [ACGT], where its
    value lies in [0, 4^len(s)); any other character makes [bases.index]
    raise [ValueError]. *)
Theorem dna2num_defined_on_ACGT_only (s : str) :
  match dna2num s with
  | Ok v => is_dna s ∧ 0 ≤ v < 4 ^ len s
  | Raise e => e = ValueError ∧ ¬ is_dna s
  end.
Proof.
  destruct (decide (is_dna s)) as [Hdna|Hdna].
  - by destruct (dna2num_dna s Hdna) as (v & -> & Hv).
  - by rewrite dna2num_not_dna.
Qed.

Lemma dna2num_leading_A (s : str) :
  dna2num ("A"%char :: s) = dna2num s.
Proof.
  unfold dna2num. rewrite reverse_cons, enumerate_snoc, comprehension_app.
  destruct (comprehension _ (enumerate (reverse s))) as [terms|e]; [|done].
  rewrite !bind_Ok, comprehension_singleton.
  change (str_index bases "A"%char) with (Ok 0 : result Z).
  by rewrite !bind_Ok, Z.shiftl_0_l, sum_snoc, Z.add_0_r.
Qed.

(** X15: [dna2num] does not record leading [A]s: putting any number of
    them in front of a string changes neither the number nor the error,
    which is why [num2dna] has to be told the length. *)
Theorem dna2num_ignores_leading_As (s : str) (k : nat) :
  dna2num (replicate k "A"%char ++ s) = dna2num s.
Proof.
  induction k as [|k IH]; [done|].
  simpl. by rewrite dna2num_leading_A.
Qed.

Lemma num2dna_below (K : nat) (m : Z) :
  0 ≤ m < 4 ^ Z.of_nat K →
  ∃ t, num2dna m (Z.of_nat K) = Ok t
       ∧ dna2num t = Ok m ∧ length t = K ∧ is_dna t.
Proof.
  revert m. induction K as [|K IH]; intros m Hm.
  - exists []. simpl in Hm. assert (m = 0) as -> by lia.
    repeat split; try reflexivity. constructor.
  - pose proof (Z.pow_pos_nonneg 4 (Z.of_nat K) ltac:(lia) ltac:(lia)) as Hpos.
    rewrite Nat2Z.inj_succ, Z.pow_succ_r in Hm by lia.
    destruct (IH (m `mod` 4 ^ Z.of_nat K)) as (t & Ht & Hnum & Hlen & Hdna).
    { apply Z.mod_pos_bound. lia. }
    assert (0 ≤ m / 4 ^ Z.of_nat K < 4) as Hq.
    { split; [apply Z.div_pos; lia|].
      apply Z.div_lt_upper_bound; lia. }
    destruct (index_bases_digit _ Hq) as (_ & Hb & Hdigit).
    exists (base_of_digit (m / 4 ^ Z.of_nat K) :: t).
    split; [|split; [|split]].
    + erewrite num2dna_S.
      * by rewrite Z.mod_small by lia.
      * rewrite <-Ht.
        rewrite (Z.div_mod m (4 ^ Z.of_nat K)) at 1 by lia.
        rewrite (Z.mul_comm (4 ^ Z.of_nat K)), Z.add_comm.
        apply num2dna_low_bits.
    + erewrite dna2num_cons by done. f_equal.
      unfold len. rewrite Hlen, Hdigit.
      rewrite (Z.div_mod m (4 ^ Z.of_nat K)) at 3 by lia. lia.
    + simpl. by rewrite Hlen.
    + by constructor.
Qed.

Lemma num2dna_nonpositive (n dnalen : Z) :
  dnalen ≤ 0 → num2dna n dnalen = Ok [].
Proof.
  intros Hd. unfold num2dna, range_step. simpl.
  replace ((2 * dnalen - 2 - -1 - -2 - 1) / (- (-2))) with dnalen
    by (apply Z.div_unique with 0; lia).
  by replace (Z.to_nat dnalen) with 0%nat by lia.
Qed.

(** X16: [num2dna] never raises: for every integer [n], negative ones
    included, and every [dnalen] it returns a sequence over [ACGT] of
    length [max(0, dnalen)], namely the one whose number is [n] modulo
    [4^max(0, dnalen)]; higher bits of [n] are dropped silently. *)
Theorem num2dna_decodes_modulo_the_length (n dnalen : Z) :
  ∃ t, num2dna n dnalen = Ok t
       ∧ len t = Z.max 0 dnalen
       ∧ is_dna t
       ∧ dna2num t = Ok (n `mod` 4 ^ Z.max 0 dnalen).
Proof.
  destruct (Z.le_gt_cases dnalen 0) as [Hd|Hd].
  - exists []. rewrite num2dna_nonpositive by done.
    replace (Z.max 0 dnalen) with 0 by lia.
    rewrite Z.pow_0_r, Z.mod_1_r. repeat split; constructor.
  - replace (Z.max 0 dnalen) with dnalen by lia.
    assert (∃ K : nat, dnalen = Z.of_nat K) as [K ->]
      by (exists (Z.to_nat dnalen); lia).
    pose proof (Z.pow_pos_nonneg 4 (Z.of_nat K) ltac:(lia) ltac:(lia)) as Hpos.
    destruct (num2dna_below K (n `mod` 4 ^ Z.of_nat K))
      as (t & Ht & Hnum & Hlen & Hdna).
    { apply Z.mod_pos_bound. lia. }
    exists t. split; [|by unfold len; rewrite Hlen].
    rewrite <-Ht.
    rewrite (Z.div_mod n (4 ^ Z.of_nat K)) at 1 by lia.
    rewrite (Z.mul_comm (4 ^ Z.of_nat K)), Z.add_comm.
    apply num2dna_low_bits.
Qed.

(** ** The Hamming distance as a distance *)

Lemma hamming_nil_l s : simple_hamming_distance [] s = 0.
Proof. done. Qed.

Lemma hamming_sym s1 s2 :
  simple_hamming_distance s1 s2 = simple_hamming_distance s2 s1.
Proof.
  revert s2. induction s1 as [|c s1 IH]; intros [|d s2];
    rewrite ?hamming_nil_l, ?hamming_nil_r; [done..|].
  rewrite !hamming_cons, IH.
  destruct (decide (c = d)), (decide (d = c)); congruence.
Qed.

Lemma hamming_prefix s t : simple_hamming_distance s (s ++ t) = 0.
Proof.
  induction s as [|c s IH]; [done|].
  simpl. by rewrite hamming_cons, decide_True, IH.
Qed.

Lemma hamming_zero s1 s2 :
  length s1 = length s2 → simple_hamming_distance s1 s2 = 0 → s1 = s2.
Proof.
  revert s2. induction s1 as [|c s1 IH]; intros [|d s2] Hlen;
    simplify_eq/=; [done|].
  rewrite hamming_cons. pose proof (hamming_bounds s1 s2).
  destruct (decide (c = d)) as [->|]; [|lia].
  intros Hd. f_equal. apply IH; [done | lia].
Qed.

Lemma hamming_triangle s1 s2 s3 :
  length s1 = length s2 → length s2 = length s3 →
  simple_hamming_distance s1 s3
  ≤ simple_hamming_distance s1 s2 + simple_hamming_distance s2 s3.
Proof.
  revert s2 s3.
  induction s1 as [|c1 s1 IH]; intros [|c2 s2] [|c3 s3] H12 H23;
    simplify_eq/=; [done|].
  rewrite !hamming_cons. specialize (IH s2 s3 H12 H23).
  destruct (decide (c1 = c3)), (decide (c1 = c2)), (decide (c2 = c3));
    try lia; congruence.
Qed.

(** X17: [simple_hamming_distance] is symmetric and lies between zero and
    the length of the shorter string; characters beyond that length are
    not compared, so a string is at distance zero from each of its
    extensions. *)
Theorem hamming_distance_ignores_the_longer_tail (s1 s2 t : str) :
  simple_hamming_distance s1 s2 = simple_hamming_distance s2 s1
  ∧ 0 ≤ simple_hamming_distance s1 s2 ≤ Z.min (len s1) (len s2)
  ∧ simple_hamming_distance s1 (s1 ++ t) = 0.
Proof.
  split; [apply hamming_sym|]. split; [|apply hamming_prefix].
  pose proof (hamming_bounds s1 s2). pose proof (hamming_bounds s2 s1).
  rewrite (hamming_sym s2 s1) in *. lia.
Qed.

(** X18: on strings of one length, [simple_hamming_distance] is a metric:
    it is zero only between equal strings and satisfies the triangle
    inequality. *)
Theorem hamming_distance_is_a_metric (s1 s2 s3 : str) :
  len s1 = len s2 →
  len s2 = len s3 →
  (simple_hamming_distance s1 s2 = 0 ↔ s1 = s2)
  ∧ simple_hamming_distance s1 s3
    ≤ simple_hamming_distance s1 s2 + simple_hamming_distance s2 s3.
Proof.
  unfold len. intros H12 H23. split.
  - split; [apply hamming_zero; lia|]. intros ->. apply hamming_same.
  - apply hamming_triangle; lia.
Qed.

Lemma hamming_distance_is_a_metric_witness :
  (simple_hamming_distance (lit "ACGT") (lit "AGGT") = 0
   ↔ lit "ACGT" = lit "AGGT")
  ∧ simple_hamming_distance (lit "ACGT") (lit "TGGA")
    ≤ simple_hamming_distance (lit "ACGT") (lit "AGGT")
      + simple_hamming_distance (lit "AGGT") (lit "TGGA").
Proof.
  apply (hamming_distance_is_a_metric (lit "ACGT") (lit "AGGT") (lit "TGGA"));
    reflexivity.
Defined.

(** ** Negative counts *)

(** X19: a negative count makes [itertools.combinations], respectively
    [itertools.product], raise [ValueError] before any sequence is built,
    in each of the five enumerators that take a count. *)
Theorem negative_counts_raise_ValueError (seq : str) (n : Z) :
  n < 0 →
  get_deletion_seqs seq n = Raise ValueError
  ∧ get_insertion_seqs seq n = Raise ValueError
  ∧ get_mismatch_seqs seq n = Raise ValueError
  ∧ get_contiguous_insertion_seqs seq n = Raise ValueError
  ∧ get_randomized_stretch_seqs seq n = Raise ValueError.
Proof.
  intros Hn.
  unfold get_deletion_seqs, get_insertion_seqs, get_mismatch_seqs,
    get_contiguous_insertion_seqs, get_randomized_stretch_seqs,
    combinations, product_repeat.
  by destruct (Z.ltb_spec n 0); [|lia].
Qed.

Lemma negative_counts_raise_ValueError_witness :
  get_deletion_seqs (lit "ACG") (-1) = Raise ValueError
  ∧ get_insertion_seqs (lit "ACG") (-1) = Raise ValueError
  ∧ get_mismatch_seqs (lit "ACG") (-1) = Raise ValueError
  ∧ get_contiguous_insertion_seqs (lit "ACG") (-1) = Raise ValueError
  ∧ get_randomized_stretch_seqs (lit "ACG") (-1) = Raise ValueError.
Proof. apply (negative_counts_raise_ValueError (lit "ACG") (-1)). lia. Defined.

(** ** Single insertions *)

Lemma get_contiguous_insertion_seqs_elements (seq : str) (len_ins : Z) :
  0 ≤ len_ins →
  ∃ S, get_contiguous_insertion_seqs seq len_ins = Ok S
       ∧ ∀ x, x ∈ S ↔
              ∃ i block, 1 ≤ i ≤ len seq
                         ∧ is_dna block ∧ len block = len_ins
                         ∧ x = slice_to seq i ++ block ++ slice_from seq i.
Proof.
  intros Hins.
  destruct (product_repeat_bases len_ins) as (all & Hall & Hin); [lia|].
  unfold get_contiguous_insertion_seqs. rewrite Hall, bind_Ok.
  set (outset := foldl _ _ _).
  assert (∀ x, x ∈ outset ↔
               ∃ i block, 1 ≤ i ≤ len seq
                          ∧ is_dna block ∧ len block = len_ins
                          ∧ x = slice_to seq i ++ block ++ slice_from seq i)
    as Hchar.
  { intros x. unfold outset.
    rewrite (elem_of_foldl_update
               (λ i, (λ insertion,
                        slice_to seq i ++ insertion ++ slice_from seq i)
                       <$> all)).
    rewrite elem_of_empty. split.
    - intros [[]|(i & Hi%elem_of_range & (b & -> & Hb%Hin)%list_elem_of_fmap)].
      exists i, b. split; [lia|]. tauto.
    - intros (i & b & Hi & Hb1 & Hb2 & ->). right. exists i.
      split; [apply elem_of_range; lia|].
      apply list_elem_of_fmap. exists b. split; [done|]. by apply Hin. }
  exists outset. split; [|done].
  rewrite assert_true_bind; [done|].
  apply forallb_forall. intros x Hx%list_elem_of_In%elem_of_elements.
  apply Z.eqb_eq. apply Hchar in Hx as (i & b & Hi & _ & Hb & ->).
  rewrite !len_app, len_slice_to, len_slice_from; lia.
Qed.

(** X20: for a single base the two insertion enumerators agree:
    [get_insertion_seqs seq 1] and [get_contiguous_insertion_seqs seq 1]
    return the same set. *)
Theorem single_insertions_coincide (seq : str) :
  ∃ S, get_insertion_seqs seq 1 = Ok S
       ∧ get_contiguous_insertion_seqs seq 1 = Ok S.
Proof.
  destruct (get_insertion_seqs_elements seq 1) as (S1 & HS1 & Hin1); [lia|].
  destruct (get_contiguous_insertion_seqs_elements seq 1)
    as (S2 & HS2 & Hin2); [lia|].
  exists S1. split; [done|]. rewrite HS2. f_equal. symmetry.
  apply set_eq. intros x. rewrite Hin1, Hin2. split.
  - intros (tup & ins & [Hlen Hasc]%combinations_nat_range & Hdna & Hins & ->).
    destruct tup as [|i [|??]]; simplify_eq/=.
    destruct ins as [|b [|??]]; unfold len in Hins; simpl in Hins; try lia.
    exists i, [b]. split; [lia|]. split; [done|]. split; [done|].
    by rewrite slice_0.
  - intros (i & block & Hi & Hdna & Hlen & ->).
    destruct block as [|b [|??]]; unfold len in Hlen; simpl in Hlen; try lia.
    exists [i], [b]. split; [|split; [done|]; split; [done|]].
    + by apply combinations_nat_range_2; [|simpl; lia].
    + simpl. by rewrite slice_0.
Qed.

(** ** Names of mismatches *)

Lemma str_join_nil (sep : str) (l : list str) :
  Forall (λ x, x ≠ []) l → str_join sep l = [] → l = [].
Proof.
  destruct l as [|x [|y l]]; [done|..]; intros [Hx _]%Forall_cons; simpl.
  - done.
  - by destruct x.
Qed.

(** The list [mms] has one non-empty entry for each pair of distinct
    characters. *)
Lemma mm_names_entries (pairs : list (ascii * ascii)) :
  let mms :=
    foldl (λ mms '(i, (c1, c2)),
             if decide (c1 ≠ c2) then mms ++ [c1 :: str_of_int i ++ [c2]]
             else mms)
          [] (enumerate pairs) in
  len mms = sum ((λ _, 1) <$> filter (λ '(c1, c2), c1 ≠ c2) pairs)
  ∧ Forall (λ x, x ≠ []) mms.
Proof.
  induction pairs as [|[c1 c2] pairs [IH1 IH2]] using rev_ind; [by split|].
  rewrite enumerate_snoc, foldl_app, filter_app, fmap_app, sum_app. simpl.
  rewrite filter_cons, filter_nil.
  destruct (decide (c1 ≠ c2)) as [Hne|Heq].
  - split.
    + rewrite len_app, IH1. done.
    + apply Forall_app. split; [done|]. by repeat constructor.
  - split; [|done]. rewrite IH1. unfold sum at 3. simpl. lia.
Qed.

(** X21: [mm_names] returns the empty string exactly when
    [simple_hamming_distance] is zero, that is, when the two strings
    agree on their common length. *)
Theorem mm_names_empty_iff_no_mismatch (ref seq : str) :
  mm_names ref seq = [] ↔ simple_hamming_distance ref seq = 0.
Proof.
  unfold mm_names, simple_hamming_distance.
  destruct (mm_names_entries (zip ref seq)) as [Hlen Hne].
  cbv zeta in Hlen, Hne. rewrite <-Hlen. split.
  - intros Hnil%str_join_nil; [|done]. by rewrite Hnil.
  - intros Hzero. unfold len in Hzero.
    apply (f_equal Z.to_nat) in Hzero. rewrite Nat2Z.id in Hzero.
    by rewrite (nil_length_inv _ Hzero).
Qed.

(** ** Reasoning about random draws *)

Section rand_rules.
Context {A B : Type}.
Implicit Types (m : rand A) (k : A → rand B).

Lemma returns_ret (a : A) (P : A → Prop) : P a → returns (mret a) P.
Proof. intros Ha g. by exists a, g. Qed.

Lemma returns_bind m k (P : A → Prop) (Q : B → Prop) :
  returns m P → (∀ a, P a → returns (k a) Q) → returns (m ≫= k) Q.
Proof.
  intros Hm Hk g. destruct (Hm g) as (a & g1 & Hg & Ha).
  destruct (Hk a Ha g1) as (b & g2 & Hg1 & Hb).
  exists b, g2. split; [|done]. unfold mbind, rand_bind. by rewrite Hg.
Qed.

Lemma returns_weaken m (P Q : A → Prop) :
  returns m P → (∀ a, P a → Q a) → returns m Q.
Proof.
  intros Hm HPQ g. destruct (Hm g) as (a & g1 & Hg & Ha).
  exists a, g1. auto.
Qed.

Lemma returns_lift (r : result A) (a : A) (P : A → Prop) :
  r = Ok a → P a → returns (lift r) P.
Proof. intros -> Ha g. by exists a, g. Qed.

Lemma raises_bind_l m k e : raises m e → raises (m ≫= k) e.
Proof. intros Hm g. unfold mbind, rand_bind. by rewrite Hm. Qed.

Lemma raises_bind_r m k (P : A → Prop) e :
  returns m P → (∀ a, P a → raises (k a) e) → raises (m ≫= k) e.
Proof.
  intros Hm Hk g. destruct (Hm g) as (a & g1 & Hg & Ha).
  unfold mbind, rand_bind. rewrite Hg. by apply Hk.
Qed.
End rand_rules.

Lemma returns_randbelow (n : nat) :
  (0 < n)%nat → returns (randbelow n) (λ i, (i < n)%nat).
Proof.
  intros Hn g. eexists _, _. split; [done|]. apply Nat.mod_upper_bound. lia.
Qed.

Lemma returns_randrange (stop : Z) :
  0 < stop → returns (randrange stop) (λ i, 0 ≤ i < stop).
Proof.
  intros Hstop. unfold randrange. destruct (Z.leb_spec stop 0); [lia|].
  eapply returns_bind; [apply returns_randbelow; lia|].
  intros i Hi. apply returns_ret. simpl in *. lia.
Qed.

Lemma raises_randrange (stop : Z) :
  stop ≤ 0 → raises (randrange stop) ValueError.
Proof.
  intros Hstop. unfold randrange. by destruct (Z.leb_spec stop 0); [|lia].
Qed.

Lemma returns_randint (a b : Z) :
  a ≤ b → returns (randint a b) (λ i, a ≤ i ≤ b).
Proof.
  intros Hab. unfold randint. destruct (Z.leb_spec (b + 1 - a) 0); [lia|].
  eapply returns_bind; [apply returns_randbelow; lia|].
  intros i Hi. apply returns_ret. simpl in *. lia.
Qed.

Lemma raises_randint (a b : Z) :
  b < a → raises (randint a b) ValueError.
Proof.
  intros Hab. unfold randint.
  by destruct (Z.leb_spec (b + 1 - a) 0); [|lia].
Qed.

Lemma returns_choice {A} (l : list A) :
  l ≠ [] → returns (choice l) (λ x, x ∈ l).
Proof.
  intros Hl. unfold choice.
  assert (0 < length l)%nat by (destruct l; simpl; [done | lia]).
  destruct (Z.eqb_spec (len l) 0) as [Hz|_]; [unfold len in Hz; lia|].
  eapply returns_bind; [by apply returns_randbelow|].
  intros i Hi. destruct (lookup_lt_is_Some_2 l i Hi) as [x Hx].
  apply (returns_lift _ x).
  - apply index_Ok; [lia|]. by rewrite Nat2Z.id.
  - by eapply list_elem_of_lookup_2.
Qed.

Lemma raises_choice_nil {A} : raises (choice (@nil A)) IndexError.
Proof. done. Qed.

Lemma returns_sample_from {A} (pool : list A) (k : nat) :
  (k ≤ length pool)%nat →
  returns (sample_from pool k)
          (λ r, length r = k ∧ ∃ rest, pool ≡ₚ r ++ rest).
Proof.
  revert pool. induction k as [|k IH]; intros pool Hk; simpl.
  - apply returns_ret. split; [done|]. by exists pool.
  - eapply returns_bind; [apply returns_randbelow; lia|].
    intros j Hj. destruct (lookup_lt_is_Some_2 pool j Hj) as [x Hx].
    eapply returns_bind.
    { apply (returns_lift _ x (λ y, y = x)); [|done].
      apply index_Ok; [lia|]. by rewrite Nat2Z.id. }
    intros ? ->. eapply returns_bind.
    { apply IH. rewrite length_delete by done. lia. }
    intros r [Hr (rest & Hrest)]. apply returns_ret.
    split; [simpl; lia|]. exists rest.
    rewrite (delete_Permutation pool j x Hx). simpl. by rewrite Hrest.
Qed.

Lemma returns_sample {A} (population : list A) (k : Z) :
  0 ≤ k ≤ len population →
  returns (sample population k)
          (λ r, len r = k ∧ ∃ rest, population ≡ₚ r ++ rest).
Proof.
  intros Hk. unfold sample.
  destruct (Z.ltb_spec k 0); [lia|].
  destruct (Z.ltb_spec (len population) k); [lia|]. simpl.
  eapply returns_weaken; [apply returns_sample_from; unfold len in *; lia|].
  intros r [Hr Hrest]. split; [unfold len; lia | done].
Qed.

Lemma raises_sample {A} (population : list A) (k : Z) :
  k < 0 ∨ len population < k → raises (sample population k) ValueError.
Proof.
  intros Hk. unfold sample.
  destruct (Z.ltb_spec k 0); [done|].
  destruct (Z.ltb_spec (len population) k); [done | lia].
Qed.

(** A loop whose body keeps an invariant on the elements done so far. *)
Lemma returns_rand_for {A S} (I : list A → S → Prop) (l : list A) (acc : S)
    (body : S → A → rand S) :
  I [] acc →
  (∀ done x rest s, l = done ++ x :: rest → I done s →
                    returns (body s x) (I (done ++ [x]))) →
  returns (rand_for l acc body) (I l).
Proof.
  intros Hacc Hbody.
  assert (∀ rest done s, l = done ++ rest → I done s →
                         returns (rand_for rest s body) (I l)) as Hgen.
  { induction rest as [|x rest IH]; intros done s Hl Hs; simpl.
    - apply returns_ret. by rewrite Hl, app_nil_r.
    - eapply returns_bind; [by eapply Hbody|].
      intros s' Hs'. apply (IH (done ++ [x])); [|done].
      by rewrite <-app_assoc. }
  by apply (Hgen l []).
Qed.

Lemma returns_rand_comprehension {A B} (P : B → Prop) (f : A → rand B)
    (l : list A) :
  (∀ x, x ∈ l → returns (f x) P) →
  returns (rand_comprehension f l) (λ ys, length ys = length l ∧ Forall P ys).
Proof.
  induction l as [|x l IH]; intros Hf; simpl.
  - by apply returns_ret.
  - eapply returns_bind; [apply Hf; by left|]. intros y Hy.
    eapply returns_bind; [apply IH; intros z Hz; apply Hf; by right|].
    intros ys [Hlen Hys]. apply returns_ret. simpl. split; [lia|].
    by constructor.
Qed.

(** ** One random error *)

Lemma split_at {A} (l : list A) (i : Z) :
  0 ≤ i → l = slice_to l i ++ slice_from l i.
Proof.
  intros Hi. by rewrite slice_to_take, slice_from_drop, take_drop by lia.
Qed.

Lemma split_around (seq : str) (i : Z) :
  0 ≤ i < len seq →
  seq = slice_to seq i ++ char_at seq i :: slice_from seq (i + 1).
Proof.
  intros Hi. rewrite <-slice_from_cons by done. apply split_at. lia.
Qed.

Lemma str_remove_bases_nonempty (c : ascii) : str_remove bases c ≠ [].
Proof.
  assert (∃ x, x ∈ str_remove bases c) as [x Hx].
  { destruct (decide ("A"%char = c)) as [<-|Hne].
    - exists "C"%char. apply elem_of_str_remove.
      split; [apply elem_of_bases; tauto | done].
    - exists "A"%char. apply elem_of_str_remove.
      split; [apply elem_of_bases; tauto | done]. }
  intros Hnil. rewrite Hnil in Hx. by apply elem_of_nil in Hx.
Qed.

Section one_edit.
Variables (cur : str) (i : Z).
Hypothesis position : 0 ≤ i < len cur.

Lemma len_replace_one (b : ascii) :
  len (slice_to cur i ++ b :: slice_from cur (i + 1)) = len cur.
Proof. rewrite len_app, len_cons, len_slice_to, len_slice_from; lia. Qed.

Lemma len_delete_one :
  len (slice_to cur i ++ slice_from cur (i + 1)) = len cur - 1.
Proof. rewrite len_app, len_slice_to, len_slice_from; lia. Qed.

Lemma sublist_delete_one :
  slice_to cur i ++ slice_from cur (i + 1) `sublist_of` cur.
Proof.
  rewrite (split_around cur i position) at 3.
  apply sublist_app; [done|]. by apply sublist_cons.
Qed.

Lemma len_insert_one (b : ascii) :
  len (slice_to cur i ++ b :: slice_from cur i) = len cur + 1.
Proof. rewrite len_app, len_cons, len_slice_to, len_slice_from; lia. Qed.

Lemma sublist_insert_one (b : ascii) :
  cur `sublist_of` slice_to cur i ++ b :: slice_from cur i.
Proof.
  rewrite (split_at cur i) at 1 by lia.
  apply sublist_app; [done|]. by apply sublist_cons.
Qed.

Lemma last_insert_one (b : ascii) :
  last (slice_to cur i ++ b :: slice_from cur i) = last cur.
Proof.
  transitivity (last (slice_to cur i ++ slice_from cur i));
    [|by rewrite <-split_at by lia].
  rewrite (slice_from_cons cur i position), !last_app, !last_cons.
  by destruct (last (slice_from cur (i + 1))).
Qed.

Lemma is_dna_replace_one (b : ascii) :
  b ∈ bases → is_dna cur →
  is_dna (slice_to cur i ++ b :: slice_from cur (i + 1)).
Proof.
  intros Hb Hcur. apply is_dna_app. split; [by apply is_dna_slice_to|].
  apply Forall_cons. split; [done | by apply is_dna_slice_from].
Qed.

Lemma is_dna_insert_one (b : ascii) :
  b ∈ bases → is_dna cur →
  is_dna (slice_to cur i ++ b :: slice_from cur i).
Proof.
  intros Hb Hcur. apply is_dna_app. split; [by apply is_dna_slice_to|].
  apply Forall_cons. split; [done | by apply is_dna_slice_from].
Qed.

Lemma is_dna_delete_one :
  is_dna cur → is_dna (slice_to cur i ++ slice_from cur (i + 1)).
Proof.
  intros Hcur. apply is_dna_app.
  split; [by apply is_dna_slice_to | by apply is_dna_slice_from].
Qed.

(** Replacing a character at which [cur] agrees with [seq] by another
    one adds one to the distance. *)
Lemma hamming_replace_one (seq : str) (b : ascii) :
  len cur = len seq →
  char_at cur i = char_at seq i →
  b ≠ char_at cur i →
  simple_hamming_distance seq (slice_to cur i ++ b :: slice_from cur (i + 1))
  = simple_hamming_distance seq cur + 1.
Proof.
  intros Hlen Hsame Hb.
  assert (length (slice_to seq i) = length (slice_to cur i)) as Hto.
  { pose proof (len_slice_to_eq seq cur i). unfold len in *. lia. }
  transitivity (simple_hamming_distance
                  (slice_to seq i ++ char_at seq i :: slice_from seq (i + 1))
                  (slice_to cur i ++ b :: slice_from cur (i + 1))).
  { by rewrite <-split_around by lia. }
  transitivity (simple_hamming_distance
                  (slice_to seq i ++ char_at seq i :: slice_from seq (i + 1))
                  (slice_to cur i ++ char_at cur i :: slice_from cur (i + 1))
                + 1); [|by rewrite <-!split_around by lia].
  rewrite !hamming_app, !hamming_cons by done.
  rewrite decide_False by congruence. rewrite decide_True by done. lia.
Qed.
End one_edit.

Lemma returns_index_char_at (seq : str) (i : Z) :
  0 ≤ i < len seq →
  returns (lift (index seq i)) (λ c, c = char_at seq i).
Proof.
  intros Hi. apply (returns_lift _ (char_at seq i)); [|done].
  by apply index_char_at.
Qed.

Lemma returns_fill_or_truncate (seq : str) (slen : Z) :
  0 ≤ slen →
  returns (fill_or_truncate seq slen)
          (λ r, len r = slen
                ∧ slice_to r (len seq) = slice_to seq slen
                ∧ (is_dna seq → is_dna r)).
Proof.
  intros Hslen. unfold fill_or_truncate. pose proof (len_nonneg seq).
  destruct (Z.leb_spec slen (len seq)) as [Hle|Hgt].
  - apply returns_ret. split; [by apply len_slice_to|].
    split; [|by apply is_dna_slice_to].
    rewrite !slice_to_take by lia. apply take_ge.
    rewrite length_take. unfold len in *. lia.
  - eapply returns_bind.
    { apply (returns_rand_comprehension (λ c, c ∈ bases)).
      intros _ _. by apply returns_choice. }
    intros fill [Hlen Hfill]. apply returns_ret.
    pose proof (len_range 0 (slen - len seq) ltac:(lia)) as Hrange.
    unfold len in *. split; [rewrite length_app; lia|]. split.
    + rewrite !slice_to_take by lia.
      rewrite Nat2Z.id, take_app_length, take_ge; [done|]. lia.
    + intros Hdna. by apply is_dna_app.
Qed.

(** X22: for a target length of zero or more, [fill_or_truncate] returns
    a string of exactly that length which starts with the first
    [min(len(seq), slen)] characters of [seq]; what it appends are letters
    of [ACGT]. *)
Theorem fill_or_truncate_gives_the_length (seq : str) (slen : Z) :
  0 ≤ slen →
  returns (fill_or_truncate seq slen)
          (λ r, len r = slen
                ∧ slice_to r (len seq) = slice_to seq slen
                ∧ (is_dna seq → is_dna r)).
Proof. apply returns_fill_or_truncate. Qed.

Lemma fill_or_truncate_gives_the_length_witness :
  returns (fill_or_truncate (lit "ACG") 5)
          (λ r, len r = 5
                ∧ slice_to r (len (lit "ACG")) = slice_to (lit "ACG") 5
                ∧ (is_dna (lit "ACG") → is_dna r)).
Proof. apply (fill_or_truncate_gives_the_length (lit "ACG") 5). lia. Defined.

(** X23: on the empty string [add_random_mismatch] raises [ValueError]
    (there is no position to draw); on any other string it returns a
    string of the same length that differs from [seq] in exactly one
    position, and that is over [ACGT] if [seq] is. *)
Theorem add_random_mismatch_changes_one_position (seq : str) :
  match seq with
  | [] => raises (add_random_mismatch seq) ValueError
  | _ :: _ =>
      returns (add_random_mismatch seq)
              (λ r, len r = len seq
                    ∧ simple_hamming_distance seq r = 1
                    ∧ (is_dna seq → is_dna r))
  end.
Proof.
  destruct seq as [|c0 s]; [by apply raises_bind_l, raises_randrange|].
  set (seq := c0 :: s). unfold add_random_mismatch.
  eapply returns_bind;
    [apply returns_randrange; unfold seq; rewrite len_cons;
     pose proof (len_nonneg s); lia|].
  intros i Hi. simpl in Hi.
  eapply returns_bind; [by apply returns_index_char_at|]. intros ? ->.
  eapply returns_bind; [apply returns_choice, str_remove_bases_nonempty|].
  intros b [Hb Hne]%elem_of_str_remove. apply returns_ret.
  split; [by apply len_replace_one|]. split.
  - rewrite hamming_replace_one, hamming_same by done. lia.
  - by apply is_dna_replace_one.
Qed.

(** X24: on the empty string [add_random_deletion] and
    [add_random_filled_deletion] raise [ValueError]; on any other string
    the former returns a subsequence of [seq] that is one character
    shorter, and the latter a string of the length of [seq]. *)
Theorem add_random_deletion_drops_one_character (seq : str) :
  match seq with
  | [] =>
      raises (add_random_deletion seq) ValueError
      ∧ raises (add_random_filled_deletion seq) ValueError
  | _ :: _ =>
      returns (add_random_deletion seq)
              (λ r, len r = len seq - 1 ∧ r `sublist_of` seq)
      ∧ returns (add_random_filled_deletion seq)
                (λ r, len r = len seq ∧ (is_dna seq → is_dna r))
  end.
Proof.
  destruct seq as [|c0 s].
  { split; [by apply raises_bind_l, raises_randrange|].
    eapply raises_bind_r; [by apply returns_choice|].
    intros b _. by apply raises_bind_l, raises_bind_l, raises_randrange. }
  set (seq := c0 :: s).
  assert (0 < len seq) as Hpos
    by (unfold seq; rewrite len_cons; pose proof (len_nonneg s); lia).
  assert (returns (add_random_deletion seq)
            (λ r, len r = len seq - 1 ∧ r `sublist_of` seq
                  ∧ (is_dna seq → is_dna r))) as Hdel.
  { unfold add_random_deletion.
    eapply returns_bind; [by apply returns_randrange|].
    intros i Hi. simpl in Hi. apply returns_ret.
    split; [by apply len_delete_one|].
    split; [by apply sublist_delete_one | by apply is_dna_delete_one]. }
  split; [eapply returns_weaken; [exact Hdel|]; naive_solver|].
  unfold add_random_filled_deletion.
  eapply returns_bind; [by apply returns_choice|]. intros b Hb.
  eapply returns_bind; [exact Hdel|]. intros r (Hlen & _ & Hdna).
  apply returns_ret. split.
  - rewrite len_app, Hlen. unfold len at 2. simpl. lia.
  - intros Hseq. apply is_dna_app. split; [by apply Hdna|].
    by apply Forall_singleton.
Qed.

(** X25: on the empty string [add_random_insertion] and
    [add_random_truncated_insertion] raise [ValueError]; on any other
    string the former returns a string one character longer that contains
    [seq] as a subsequence and ends with the last character of [seq] (the
    base is never appended), and the latter a string of the length of
    [seq]. *)
Theorem add_random_insertion_adds_one_character (seq : str) :
  match seq with
  | [] =>
      raises (add_random_insertion seq) ValueError
      ∧ raises (add_random_truncated_insertion seq) ValueError
  | _ :: _ =>
      returns (add_random_insertion seq)
              (λ r, len r = len seq + 1 ∧ seq `sublist_of` r
                    ∧ last r = last seq)
      ∧ returns (add_random_truncated_insertion seq)
                (λ r, len r = len seq ∧ (is_dna seq → is_dna r))
  end.
Proof.
  destruct seq as [|c0 s].
  { split; [by apply raises_bind_l, raises_randrange|].
    by apply raises_bind_l, raises_bind_l, raises_randrange. }
  set (seq := c0 :: s).
  assert (0 < len seq) as Hpos
    by (unfold seq; rewrite len_cons; pose proof (len_nonneg s); lia).
  assert (returns (add_random_insertion seq)
            (λ r, len r = len seq + 1 ∧ seq `sublist_of` r
                  ∧ last r = last seq ∧ (is_dna seq → is_dna r))) as Hins.
  { unfold add_random_insertion.
    eapply returns_bind; [by apply returns_randrange|].
    intros i Hi. simpl in Hi.
    eapply returns_bind; [by apply returns_choice|]. intros b Hb.
    apply returns_ret. split; [apply len_insert_one; lia|].
    split; [apply sublist_insert_one; lia|].
    split; [by apply last_insert_one | by apply is_dna_insert_one]. }
  split; [eapply returns_weaken; [exact Hins|]; naive_solver|].
  unfold add_random_truncated_insertion.
  eapply returns_bind; [exact Hins|]. intros r (Hlen & _ & _ & Hdna).
  apply returns_ret. split; [apply len_slice_to; lia|].
  intros Hseq. by apply is_dna_slice_to, Hdna.
Qed.

(** ** Several random errors *)

Lemma NoDup_range (a b : Z) : NoDup (range a b).
Proof.
  unfold range. apply NoDup_fmap_2_strong; [|apply NoDup_seq].
  intros k1 k2 _ _ ?. lia.
Qed.

(** A sample of positions: distinct and within the sequence. *)
Lemma returns_sample_range (n k : Z) :
  0 ≤ k ≤ n →
  returns (sample (range 0 n) k)
          (λ idxs, len idxs = k ∧ NoDup idxs
                   ∧ Forall (λ i, 0 ≤ i < n) idxs).
Proof.
  intros Hk.
  eapply returns_weaken; [apply returns_sample; rewrite len_range; lia|].
  intros idxs [Hlen (rest & Hperm)]. split; [done|].
  pose proof (NoDup_range 0 n) as Hnodup. rewrite Hperm in Hnodup.
  apply NoDup_app in Hnodup as (Hnodup & _ & _). split; [done|].
  apply Forall_forall. intros i Hi. apply elem_of_range.
  rewrite Hperm. apply elem_of_app. by left.
Qed.

Lemma char_at_replace_one (cur : str) (i j : Z) (b : ascii) :
  0 ≤ i < len cur → 0 ≤ j → j ≠ i →
  char_at (slice_to cur i ++ b :: slice_from cur (i + 1)) j = char_at cur j.
Proof.
  intros Hi Hj Hne. unfold char_at. f_equal.
  apply (lookup_replaced_span cur [b] i (i + 1));
    [lia | lia | unfold len; simpl; lia | lia].
Qed.

Lemma returns_add_random_mismatches (seq : str) (nerr : Z) :
  0 ≤ nerr ≤ len seq →
  returns (add_random_mismatches seq nerr)
          (λ r, len r = len seq
                ∧ simple_hamming_distance seq r = nerr
                ∧ (is_dna seq → is_dna r)).
Proof.
  intros Hnerr. unfold add_random_mismatches.
  eapply returns_bind; [by apply returns_sample_range|].
  intros idxs (Hlen & Hnodup & Hidxs).
  eapply returns_weaken.
  - apply (returns_rand_for
             (λ done cur,
                len cur = len seq
                ∧ simple_hamming_distance seq cur = len done
                ∧ (∀ j, 0 ≤ j → j ∉ done → char_at cur j = char_at seq j)
                ∧ (is_dna seq → is_dna cur))).
    + split; [done|]. by rewrite hamming_same.
    + intros done i rest cur -> (Hcur & Hham & Hsame & Hdna).
      apply NoDup_app in Hnodup as (_ & Hnew & _).
      apply Forall_app in Hidxs as [_ [Hi _]%Forall_cons].
      assert (i ∉ done) as Hi' by (intros ?; eapply Hnew; [done | by left]).
      eapply returns_bind; [apply returns_index_char_at; lia|]. intros ? ->.
      eapply returns_bind; [apply returns_choice, str_remove_bases_nonempty|].
      intros b [Hb Hne]%elem_of_str_remove. apply returns_ret.
      split; [by rewrite len_replace_one by lia|]. split; [|split].
      * rewrite hamming_replace_one; [|lia | done | apply Hsame; [lia | done] | done].
        rewrite Hham, len_app. change (len [i]) with 1. lia.
      * intros j Hj [Hj1 Hj2]%not_elem_of_app.
        assert (j ≠ i) by (intros ->; apply Hj2; by left).
        rewrite char_at_replace_one by lia. by apply Hsame.
      * intros Hseq. apply is_dna_replace_one; [done | by apply Hdna].
  - intros r (Hr & Hham & _ & Hdna). rewrite Hham, Hlen. done.
Qed.

(** X26: for [0 <= nerr <= len(seq)], [add_random_mismatches] returns a
    string of the length of [seq] that differs from [seq] in exactly
    [nerr] positions (and is over [ACGT] if [seq] is); for any other
    [nerr] the sampling of positions raises [ValueError]. *)
Theorem add_random_mismatches_changes_nerr_positions (seq : str) (nerr : Z) :
  if decide (0 ≤ nerr ≤ len seq) then
    returns (add_random_mismatches seq nerr)
            (λ r, len r = len seq
                  ∧ simple_hamming_distance seq r = nerr
                  ∧ (is_dna seq → is_dna r))
  else raises (add_random_mismatches seq nerr) ValueError.
Proof.
  destruct (decide (0 ≤ nerr ≤ len seq)) as [Hnerr|Hnerr].
  - by apply returns_add_random_mismatches.
  - apply raises_bind_l, raises_sample.
    pose proof (len_nonneg seq). rewrite len_range by lia. lia.
Qed.

#[global] Instance descending_transitive : Transitive descending.
Proof. unfold descending. intros x y z ??. lia. Qed.

#[global] Instance descending_total : Total descending.
Proof. unfold descending. intros x y. lia. Qed.

Lemma sort_reverse_sorted (idxs : list Z) :
  StronglySorted descending (sort_reverse idxs)
  ∧ sort_reverse idxs ≡ₚ idxs.
Proof.
  split; [apply StronglySorted_merge_sort; apply _|].
  apply merge_sort_Permutation.
Qed.

(** Deleting at distinct positions from the highest one down removes one
    character each time. *)
Lemma delete_descending (idxs : list Z) (cur : str) :
  StronglySorted descending idxs →
  NoDup idxs →
  Forall (λ i, 0 ≤ i < len cur) idxs →
  let r := foldl (λ seq i, slice_to seq i ++ slice_from seq (i + 1))
                 cur idxs in
  len r = len cur - len idxs
  ∧ r `sublist_of` cur
  ∧ (is_dna cur → is_dna r).
Proof.
  intros Hsorted. revert cur.
  induction Hsorted as [|i idxs Hsorted IH Hhead];
    intros cur Hnodup Hidxs; simpl.
  { split; [unfold len at 3; simpl; lia|]. done. }
  apply NoDup_cons in Hnodup as [Hi Hnodup].
  apply Forall_cons in Hidxs as [Hpos Hidxs].
  destruct (IH (slice_to cur i ++ slice_from cur (i + 1)) Hnodup)
    as (Hlen & Hsub & Hdna).
  { rewrite len_delete_one by done.
    rewrite Forall_forall in Hhead, Hidxs. apply Forall_forall.
    intros x Hx. specialize (Hhead x Hx). specialize (Hidxs x Hx).
    unfold descending in Hhead.
    assert (x ≠ i) by (by intros ->). lia. }
  rewrite len_delete_one in Hlen by done. split; [rewrite len_cons; lia|].
  split.
  - etrans; [done|]. by apply sublist_delete_one.
  - intros Hcur. by apply Hdna, is_dna_delete_one.
Qed.

Lemma returns_add_random_deletions (seq : str) (nerr : Z) :
  0 ≤ nerr ≤ len seq →
  returns (add_random_deletions seq nerr)
          (λ r, len r = len seq - nerr
                ∧ r `sublist_of` seq
                ∧ (is_dna seq → is_dna r)).
Proof.
  intros Hnerr. unfold add_random_deletions.
  eapply returns_bind; [by apply returns_sample_range|].
  intros idxs (Hlen & Hnodup & Hidxs). apply returns_ret.
  destruct (sort_reverse_sorted idxs) as [Hsorted Hperm].
  destruct (delete_descending (sort_reverse idxs) seq Hsorted)
    as (Hr & Hsub & Hdna).
  - by rewrite Hperm.
  - apply Forall_forall. intros i Hi. rewrite Hperm in Hi.
    rewrite Forall_forall in Hidxs. by apply Hidxs.
  - split; [|done]. rewrite Hr. unfold len in *. rewrite Hperm. lia.
Qed.

(** X27: for [0 <= nerr <= len(seq)], [add_random_deletions] returns a
    subsequence of [seq] that is exactly [nerr] characters shorter, and
    [add_random_filled_deletions] a string of the length of [seq]; for
    any other [nerr] both raise [ValueError]. *)
Theorem add_random_deletions_drop_nerr_characters (seq : str) (nerr : Z) :
  if decide (0 ≤ nerr ≤ len seq) then
    returns (add_random_deletions seq nerr)
            (λ r, len r = len seq - nerr ∧ r `sublist_of` seq)
    ∧ returns (add_random_filled_deletions seq nerr)
              (λ r, len r = len seq ∧ (is_dna seq → is_dna r))
  else
    raises (add_random_deletions seq nerr) ValueError
    ∧ raises (add_random_filled_deletions seq nerr) ValueError.
Proof.
  pose proof (len_nonneg seq) as Hseq.
  destruct (decide (0 ≤ nerr ≤ len seq)) as [Hnerr|Hnerr].
  - pose proof (returns_add_random_deletions seq nerr Hnerr) as Hdel.
    split; [eapply returns_weaken; [exact Hdel|]; naive_solver|].
    unfold add_random_filled_deletions.
    eapply returns_bind; [exact Hdel|]. intros r (_ & _ & Hdna).
    eapply returns_weaken; [by apply returns_fill_or_truncate|].
    intros r' (Hlen & _ & Hdna'). auto.
  - assert (raises (add_random_deletions seq nerr) ValueError) as Hdel.
    { apply raises_bind_l, raises_sample. rewrite len_range by lia. lia. }
    split; [done|]. by apply raises_bind_l.
Qed.

(** ** Test runs *)

Example deletions_ACG_1 :
  get_deletion_seqs (lit "ACG") 1
  = Ok (list_to_set [lit "CG"; lit "AG"; lit "AC"]).
Proof. vm_compute. reflexivity. Qed.

Example mismatches_in_region_ACGTACGT :
  get_mismatches_in_region (lit "ACGTACGT") 2 5 1
  = Ok (list_to_set
          [lit "ACATACGT"; lit "ACCTACGT"; lit "ACTTACGT";
           lit "ACGAACGT"; lit "ACGCACGT"; lit "ACGGACGT";
           lit "ACGTCCGT"; lit "ACGTGCGT"; lit "ACGTTCGT"]).
Proof. vm_compute. reflexivity. Qed.

Example complement_bundles_13 :
  get_complementary_bundle_sets (lit "ACGTACGTACGTA")
  = Ok (list_to_set
          [lit "TGCATGGTACGTA"; lit "TGCTACCATCGTA"; lit "TGCTACGTAGCAT";
           lit "ACGATGCATCGTA"; lit "ACGATGGTAGCAT"; lit "ACGTACCATGCAT"]).
Proof. vm_compute. reflexivity. Qed.

Example dna2num_ACGT : dna2num (lit "ACGT") = Ok 27.
Proof. reflexivity. Qed.
